(** * Cellular automata editor: rule engine and SVG exporter

    A shallow embedding of the algorithmic core of
    [src/App.tsx] (component [CellularAutomataEditor]): the rule table
    [getRuleLookup], the row step [applyRule], the row-by-row generation
    [generatePattern] and both versions of the exporter [generateSVG].

    JavaScript numbers that the code uses as integers are [Z] (or [nat]
    where they are array lengths and loop counters), strings are
    [string], arrays are lists read with [!!] and written with
    [<[i:=x]>] / [alter]. *)

From Stdlib Require Import Ascii String.
From stdpp Require Import base list strings pretty option numbers sorting relations.

Open Scope Z_scope.

#[local] Set Warnings "-clear-no-such-hyp".


(** ** JavaScript values held by grid cells

    A cell of the grid is [true], [false] or [null] (rows that were not
    generated yet are filled with [null]); reading an array out of range
    or an object at a missing key gives [undefined]. *)

Inductive jsval : Type :=
  | JBool (b : bool)
  | JNull
  | JUndefined.

#[global] Instance jsval_eq_dec : EqDecision jsval.
Proof. solve_decision. Defined.

(** [ToBoolean]: what [v ? a : b], [v || w] and [v && w] test. *)
Definition truthy (v : jsval) : bool :=
  match v with
  | JBool b => b
  | JNull | JUndefined => false
  end.

(** [v || w] *)
Definition js_or (v w : jsval) : jsval := if truthy v then v else w.

(** [a[i]] for an array of cells and a JavaScript index, which may be
    [-1] or past the end: both give [undefined]. *)
Definition arr_get (a : list jsval) (i : Z) : jsval :=
  if i <? 0 then JUndefined else default JUndefined (a !! Z.to_nat i).

(** ** Rule engine *)

(** [n.toString(2)] for an integer [n]: most significant digit first, no
    leading zero, a minus sign for negative numbers. *)
Fixpoint binary_digits (p : positive) (acc : string) : string :=
  match p with
  | xH => String "1"%char acc
  | xO q => binary_digits q (String "0"%char acc)
  | xI q => binary_digits q (String "1"%char acc)
  end.

Definition toString2 (n : Z) : string :=
  match n with
  | Z0 => "0"
  | Zpos p => binary_digits p EmptyString
  | Zneg p => String "-"%char (binary_digits p EmptyString)
  end.

Fixpoint repeat_char (n : nat) (c : ascii) : string :=
  match n with
  | O => EmptyString
  | S k => String c (repeat_char k c)
  end.

(** [s.padStart(targetLength, c)] for a one-character filler [c]. *)
Definition padStart (targetLength : nat) (c : ascii) (s : string) : string :=
  repeat_char (targetLength - String.length s) c +:+ s.

(** [s[i] === c] *)
Definition char_is (s : string) (i : nat) (c : ascii) : bool :=
  match String.get i s with
  | Some a => Ascii.eqb a c
  | None => false
  end.

(** The object literal returned by [getRuleLookup]: one boolean per
    neighbourhood pattern. *)
Record RuleLookup : Type := mkRuleLookup {
  k111 : bool; k110 : bool; k101 : bool; k100 : bool;
  k011 : bool; k010 : bool; k001 : bool; k000 : bool
}.

#[global] Instance RuleLookup_eq_dec : EqDecision RuleLookup.
Proof. solve_decision. Defined.

(** [ruleLookup[pattern]]: [undefined] for a key the object does not have. *)
Definition lookup_pattern (ruleLookup : RuleLookup) (pattern : string) : jsval :=
  if String.eqb pattern "111" then JBool (k111 ruleLookup)
  else if String.eqb pattern "110" then JBool (k110 ruleLookup)
  else if String.eqb pattern "101" then JBool (k101 ruleLookup)
  else if String.eqb pattern "100" then JBool (k100 ruleLookup)
  else if String.eqb pattern "011" then JBool (k011 ruleLookup)
  else if String.eqb pattern "010" then JBool (k010 ruleLookup)
  else if String.eqb pattern "001" then JBool (k001 ruleLookup)
  else if String.eqb pattern "000" then JBool (k000 ruleLookup)
  else JUndefined.

(** The order of the patterns, as in [getRuleDescription]. *)
Definition patterns : list string :=
  ["111"; "110"; "101"; "100"; "011"; "010"; "001"; "000"]%string.

Definition getRuleLookup (ruleNumber : Z) : RuleLookup :=
  let binary := padStart 8 "0"%char (toString2 ruleNumber) in
  {| k111 := char_is binary 0 "1"%char;
     k110 := char_is binary 1 "1"%char;
     k101 := char_is binary 2 "1"%char;
     k100 := char_is binary 3 "1"%char;
     k011 := char_is binary 4 "1"%char;
     k010 := char_is binary 5 "1"%char;
     k001 := char_is binary 6 "1"%char;
     k000 := char_is binary 7 "1"%char |}.

(** [${v ? '1' : '0'}] *)
Definition bit_char (v : jsval) : string := if truthy v then "1" else "0".

(** [prevRow.map((_, i) => ...)] of [applyRule]. *)
Definition applyRule (prevRow : list jsval) (ruleLookup : RuleLookup) : list jsval :=
  imap (fun (i : nat) (_ : jsval) =>
    let left := js_or (arr_get prevRow (Z.of_nat i - 1)) (JBool false) in
    let center := arr_get prevRow (Z.of_nat i) in
    let right := js_or (arr_get prevRow (Z.of_nat i + 1)) (JBool false) in
    let pattern := bit_char left +:+ bit_char center +:+ bit_char right in
    lookup_pattern ruleLookup pattern) prevRow.

(** *** The component state that [generatePattern] reads and writes *)

Abbreviation Grid := (list (list jsval)).

Record State : Type := mkState {
  rows : nat;
  rule : Z;
  grid : Grid;
  isAnimating : bool;
  hasGenerated : bool
}.

(** One update of [setGrid] inside [animate]:
    [newGrid = [...prev]; if (currentRow > 0) newGrid[currentRow] =
    applyRule(newGrid[currentRow - 1], ruleLookup)].
    [None] is the [TypeError] of [applyRule(undefined, ...)] when the
    grid has no row [currentRow - 1]. When the row before exists the
    write is inside the array or exactly at its end, where JavaScript
    appends. *)
Definition animate_step (ruleLookup : RuleLookup) (currentRow : nat)
    (prev : Grid) : option Grid :=
  if decide (0 < currentRow)%nat then
    prevRow ← prev !! (currentRow - 1)%nat;
    let newRow := applyRule prevRow ruleLookup in
    if decide (currentRow < length prev)%nat
    then Some (<[currentRow := newRow]> prev)
    else Some (prev ++ [newRow])
  else Some prev.

(** [animate(currentRow)], which re-schedules itself for
    [currentRow + 1] until [currentRow >= rows]; [remaining] is
    [rows - currentRow], the number of rows still to compute. *)
Fixpoint animate (ruleLookup : RuleLookup) (remaining : nat) (currentRow : nat)
    (g : Grid) : option Grid :=
  match remaining with
  | O => Some g
  | S k =>
      g' ← animate_step ruleLookup currentRow g;
      animate ruleLookup k (currentRow + 1)%nat g'
  end.

Definition generatePattern (st : State) : option State :=
  if isAnimating st then Some st
  else
    let ruleLookup := getRuleLookup (rule st) in
    g ← animate ruleLookup (rows st - 1)%nat 1%nat (grid st);
    Some {| rows := rows st; rule := rule st; grid := g;
            isAnimating := false; hasGenerated := true |}.

(** The rule indices the interface can put into the state: the
    search list and the pills of the popular rules. *)
Fixpoint is_prefix (p s : string) : bool :=
  match p, s with
  | EmptyString, _ => true
  | String a p', String b s' => Ascii.eqb a b && is_prefix p' s'
  | String _ _, EmptyString => false
  end.

(** [s.includes(sub)] *)
Fixpoint includes (s sub : string) : bool :=
  is_prefix sub s ||
  match s with
  | EmptyString => false
  | String _ s' => includes s' sub
  end.

Definition filteredRules (ruleSearch : string) : list Z :=
  filter (fun r => includes (pretty r) ruleSearch = true) (seqZ 0 256).

Definition popularRules : list Z := [30; 90; 110; 184; 150; 54; 126; 18; 22; 73].

(** The handlers that call [setRule]: a click on entry [i] of the rule
    list filtered by [ruleSearch], a click on pill [i] of the popular
    rules, and [resetToDefaults]. *)
Inductive RuleEvent : Type :=
  | ClickRule (ruleSearch : string) (i : nat)
  | ClickPopular (i : nat)
  | ResetToDefaults.

(** The [rule] state after a handler has run; a click on an entry that
    the list does not have reaches no handler. *)
Definition setRule_on (rule : Z) (e : RuleEvent) : Z :=
  match e with
  | ClickRule ruleSearch i => default rule (filteredRules ruleSearch !! i)
  | ClickPopular i => default rule (popularRules !! i)
  | ResetToDefaults => 30
  end.

(** *** The batch generator of the specification

    Follows the specification's [generate(seedRow, table, rowCount)]:
    row 0 is the seed and every further row is [stepRow] of the row
    before, [rowCount] rows in all. *)
Fixpoint generate (seedRow : list jsval) (table : RuleLookup) (rowCount : nat) : Grid :=
  match rowCount with
  | O => []
  | S k => seedRow :: generate (applyRule seedRow table) table k
  end.

(** The row step read on a row padded with one empty cell on each side:
    the zero boundary of the specification. *)
Fixpoint step_padded (table : RuleLookup) (padded : list bool) : list jsval :=
  match padded with
  | [] => []
  | l :: rest =>
      match rest with
      | c :: r :: _ =>
          lookup_pattern table
            (bit_char (JBool l) +:+ bit_char (JBool c) +:+ bit_char (JBool r))
          :: step_padded table rest
      | _ => []
      end
  end.

(** ** Vector exporter *)

(** Loops: [for (const x of l) s = body(x, s)], and the same loop
    whose body may leave the model ([None]). *)
Fixpoint for_loop {A S : Type} (body : A → S → S) (l : list A) (s : S) : S :=
  match l with
  | [] => s
  | x :: l' => for_loop body l' (body x s)
  end.

Fixpoint for_each {A S : Type} (body : A → S → option S) (l : list A) (s : S)
    : option S :=
  match l with
  | [] => Some s
  | x :: l' => s' ← body x s; for_each body l' s'
  end.

(** [grid[r] && grid[r][c]]: [undefined] when the grid has no row [r]
    (an array, even an empty one, is truthy) or the row no cell [c]. *)
Definition grid_cell (grid : Grid) (r c : nat) : jsval :=
  match grid !! r with
  | None => JUndefined
  | Some row => default JUndefined (row !! c)
  end.

(** The two boolean work arrays, [matrix] and [visited]. *)
Abbreviation Matrix := (list (list bool)).

(** [Array(rows).fill(null).map(() => Array(cols).fill(false))] *)
Definition new_matrix (rows cols : nat) : Matrix :=
  replicate rows (replicate cols false).

(** [m[r][c]] and [m[r][c] = v]. The exporter reads and writes these
    arrays inside their bounds only (loop counters below [rows] and
    [cols], or after the bounds test of the flood fill). *)
Definition mget (m : Matrix) (r c : nat) : bool :=
  default false (m !! r ≫= (.!! c)).

Definition mset (m : Matrix) (r c : nat) (v : bool) : Matrix :=
  alter (<[c := v]>) r m.

Definition build_matrix (grid : Grid) (rows cols : nat) : Matrix :=
  for_loop (fun r m =>
    for_loop (fun c m =>
      if truthy (grid_cell grid r c) then mset m r c true else m)
      (seq 0 cols) m)
    (seq 0 rows) (new_matrix rows cols).

(** A cell [[r, c]] as the flood fill stacks it: the neighbours of a
    border cell have a coordinate [-1], [rows] or [cols]. *)
Abbreviation Cell := (Z * Z)%type.

(** The test that makes the flood fill skip a popped cell. *)
Definition skip_cell (rows cols : nat) (matrix visited : Matrix) (p : Cell) : bool :=
  (p.1 <? 0) || (p.1 >=? Z.of_nat rows) || (p.2 <? 0) || (p.2 >=? Z.of_nat cols)
  || mget visited (Z.to_nat p.1) (Z.to_nat p.2)
  || negb (mget matrix (Z.to_nat p.1) (Z.to_nat p.2)).

(** [while (stack.length > 0) { ... }]. The list [stack] has the top of
    the JavaScript array (its last element) at its head, so
    [stack.push(a, b, c, d)] conses [d], [c], [b], [a]. [component.push]
    appends. [None] when [fuel] iterations were not enough. *)
Fixpoint floodFill (fuel : nat) (rows cols : nat) (matrix visited : Matrix)
    (component stack : list Cell) : option (Matrix * list Cell) :=
  match stack with
  | [] => Some (visited, component)
  | p :: stack' =>
      match fuel with
      | O => None
      | S fuel' =>
          if skip_cell rows cols matrix visited p
          then floodFill fuel' rows cols matrix visited component stack'
          else
            let '(cr, cc) := p in
            floodFill fuel' rows cols matrix
              (mset visited (Z.to_nat cr) (Z.to_nat cc) true)
              (component ++ [(cr, cc)])
              ((cr, cc + 1) :: (cr, cc - 1) :: (cr + 1, cc) :: (cr - 1, cc) :: stack')
      end
  end.

(** Iterations granted to one flood fill: every cell is marked at most
    once and pushes four cells, and the start cell is pushed once. *)
Definition flood_budget (rows cols : nat) : nat := S (4 * (rows * cols)).

(** [Math.min(...l)] and [Math.max(...l)] on integers; of an empty
    list they are [Infinity] and [-Infinity], which [Z] does not have. *)
Definition Math_min (l : list Z) : option Z :=
  match l with
  | [] => None
  | x :: xs => Some (foldl Z.min x xs)
  end.

Definition Math_max (l : list Z) : option Z :=
  match l with
  | [] => None
  | x :: xs => Some (foldl Z.max x xs)
  end.

(** The markup. [dq] is the double quote character. *)
Definition dq : string := String "034"%char EmptyString.

Definition attr (name : string) (value : Z) : string :=
  name +:+ "=" +:+ dq +:+ pretty value +:+ dq.

Definition fill_attr : string := "fill=" +:+ dq +:+ "#000" +:+ dq.

Definition rect_plain (x y w h : Z) : string :=
  "<rect " +:+ attr "x" x +:+ " " +:+ attr "y" y +:+ " " +:+ attr "width" w
  +:+ " " +:+ attr "height" h +:+ " " +:+ fill_attr +:+ "/>".

Definition rect_rounded (x y w h r : Z) : string :=
  "<rect " +:+ attr "x" x +:+ " " +:+ attr "y" y +:+ " " +:+ attr "width" w
  +:+ " " +:+ attr "height" h +:+ " " +:+ attr "rx" r +:+ " " +:+ attr "ry" r
  +:+ " " +:+ fill_attr +:+ "/>".

Definition svg_envelope (width height : Z) (body : string) : string :=
  "<svg " +:+ attr "width" width +:+ " " +:+ attr "height" height
  +:+ " xmlns=" +:+ dq +:+ "http://www.w3.org/2000/svg" +:+ dq +:+ ">"
  +:+ body +:+ "</svg>".

(** The rectangle over the bounding box of a component. *)
Definition bbox_rect (cellSize roundedCorners : Z) (component : list Cell)
    : option string :=
  minR ← Math_min (component.*1);
  maxR ← Math_max (component.*1);
  minC ← Math_min (component.*2);
  maxC ← Math_max (component.*2);
  let x := minC * cellSize in
  let y := minR * cellSize in
  let w := (maxC - minC + 1) * cellSize in
  let h := (maxR - minR + 1) * cellSize in
  Some (rect_rounded x y w h roundedCorners).

(** The zero-radius branch, the same in both versions. *)
Definition cell_rects (grid : Grid) (cols rows : nat) (cellSize : Z) : string :=
  for_loop (fun r rects =>
    for_loop (fun c rects =>
      if truthy (grid_cell grid r c) then
        let x := Z.of_nat c * cellSize in
        let y := Z.of_nat r * cellSize in
        rects +:+ rect_plain x y cellSize cellSize
      else rects)
      (seq 0 cols) rects)
    (seq 0 rows) EmptyString.

(** *** First version (TypeScript): the rectangle is appended to [path]
    as soon as its component is found *)

Definition scan_cell (rows cols : nat) (cellSize roundedCorners : Z)
    (matrix : Matrix) (r c : nat) (st : Matrix * string)
    : option (Matrix * string) :=
  let '(visited, path) := st in
  if mget matrix r c && negb (mget visited r c) then
    '(visited', component) ←
      floodFill (flood_budget rows cols) rows cols matrix visited []
        [(Z.of_nat r, Z.of_nat c)];
    if decide (0 < length component)%nat then
      rect ← bbox_rect cellSize roundedCorners component;
      Some (visited', path +:+ rect)
    else Some (visited', path)
  else Some (visited, path).

Definition generateSVG (grid : Grid) (cols rows : nat)
    (roundedCorners cellSize : Z) : option string :=
  let width := Z.of_nat cols * cellSize in
  let height := Z.of_nat rows * cellSize in
  if 0 <? roundedCorners then
    let matrix := build_matrix grid rows cols in
    let visited := new_matrix rows cols in
    '(_, path) ←
      for_each (fun r st =>
        for_each (fun c st =>
          scan_cell rows cols cellSize roundedCorners matrix r c st)
          (seq 0 cols) st)
        (seq 0 rows) (visited, EmptyString);
    Some (svg_envelope width height path)
  else
    Some (svg_envelope width height (cell_rects grid cols rows cellSize)).

(** *** Second version (JavaScript): the components are collected
    first, then one rectangle is written per component, a component of
    one cell by its own branch *)

Definition collect_cell (rows cols : nat) (matrix : Matrix) (r c : nat)
    (st : Matrix * list (list Cell)) : option (Matrix * list (list Cell)) :=
  let '(visited, components) := st in
  if mget matrix r c && negb (mget visited r c) then
    '(visited', component) ←
      floodFill (flood_budget rows cols) rows cols matrix visited []
        [(Z.of_nat r, Z.of_nat c)];
    if decide (0 < length component)%nat
    then Some (visited', components ++ [component])
    else Some (visited', components)
  else Some (visited, components).

Definition findComponents (rows cols : nat) (matrix : Matrix)
    : option (list (list Cell)) :=
  '(_, components) ←
    for_each (fun r st =>
      for_each (fun c st => collect_cell rows cols matrix r c st)
        (seq 0 cols) st)
      (seq 0 rows) (new_matrix rows cols, []);
  Some components.

(** The body of [components.forEach]. *)
Definition component_rect (cellSize roundedCorners : Z) (component : list Cell)
    : option string :=
  match component with
  | [(r, c)] =>
      let x := c * cellSize in
      let y := r * cellSize in
      Some (rect_rounded x y cellSize cellSize roundedCorners)
  | _ => bbox_rect cellSize roundedCorners component
  end.

Definition generateSVG_2 (grid : Grid) (cols rows : nat)
    (roundedCorners cellSize : Z) : option string :=
  let width := Z.of_nat cols * cellSize in
  let height := Z.of_nat rows * cellSize in
  if 0 <? roundedCorners then
    let matrix := build_matrix grid rows cols in
    components ← findComponents rows cols matrix;
    paths ←
      for_each (fun component paths =>
        rect ← component_rect cellSize roundedCorners component;
        Some (paths +:+ rect))
        components EmptyString;
    Some (svg_envelope width height paths)
  else
    Some (svg_envelope width height (cell_rects grid cols rows cellSize)).

(** ** The rest of the component: descriptions, example, grid resets,
    preview *)

(** The entries of [popularRules] with their descriptions. *)
Definition popularRuleDescriptions : list (Z * string) :=
  [ (30, "Chaotic pattern generator, used in Mathematica's random number generator");
    (90, "Sierpinski triangle generator, creates fractal patterns");
    (110, "Turing complete, capable of universal computation");
    (184, "Traffic flow model, simulates highway traffic patterns");
    (150, "Additive cellular automaton, creates nested patterns");
    (54, "Creates complex triangular structures");
    (126, "Produces dense, chaotic patterns");
    (18, "Simple fractal generator with clear structure");
    (22, "Periodic patterns with interesting symmetries");
    (73, "Complex boundary behavior with localized structures") ]%string.

(** [l.join(sep)] *)
Fixpoint join (sep : string) (l : list string) : string :=
  match l with
  | [] => EmptyString
  | s :: l' =>
      match l' with
      | [] => s
      | _ :: _ => s +:+ sep +:+ join sep l'
      end
  end.

(** [patterns.forEach((pattern, i) => { if (binary[i] === '1')
    activePatterns.push(pattern); })] *)
Definition activePatterns (binary : string) : list string :=
  for_loop (fun (ip : nat * string) (active : list string) =>
    if char_is binary ip.1 "1"%char then active ++ [ip.2] else active)
    (imap (fun i pattern => (i, pattern)) patterns) [].

Definition getRuleDescription (ruleNumber : Z) : string :=
  match List.find (fun r => Z.eqb r.1 ruleNumber) popularRuleDescriptions with
  | Some popular => popular.2
  | None =>
      let binary := padStart 8 "0"%char (toString2 ruleNumber) in
      "This rule activates cells when the neighborhood pattern is: "
        +:+ join ", " (activePatterns binary)
  end.

(** [g[r][c] = v] on a grid of cells, inside its bounds. *)
Definition grid_set (g : Grid) (r c : nat) (v : jsval) : Grid :=
  alter (<[c := v]>) r g.

(** [generateExamplePattern]: the 14 by 14 example of the rule modal,
    written cell by cell into [exampleGrid]. The rows read and written
    exist: [r] runs from 1 to 13 over 14 rows. *)
Definition generateExamplePattern (ruleNumber : Z) : Grid :=
  let size := 14%nat in
  let exampleGrid := replicate size (replicate size (JBool false)) in
  let exampleGrid := grid_set exampleGrid 0 (size / 2)%nat (JBool true) in
  let ruleLookup := getRuleLookup ruleNumber in
  for_loop (fun r exampleGrid =>
    for_loop (fun c exampleGrid =>
      let above := default [] (exampleGrid !! (r - 1)%nat) in
      let left := js_or (arr_get above (Z.of_nat c - 1)) (JBool false) in
      let center := arr_get above (Z.of_nat c) in
      let right := js_or (arr_get above (Z.of_nat c + 1)) (JBool false) in
      let pattern := bit_char left +:+ bit_char center +:+ bit_char right in
      grid_set exampleGrid r c (lookup_pattern ruleLookup pattern))
      (seq 0 size) exampleGrid)
    (seq 1 (size - 1)) exampleGrid.

(** The grid that the effect on [rows] and [cols] and [clearAll] build:
    [Array(rows).fill(null).map((_, i) =>
       Array(cols).fill(i === 0 ? false : null))]. *)
Definition newGrid (rows cols : nat) : Grid :=
  imap (fun (i : nat) (_ : jsval) =>
    replicate cols (if decide (i = 0%nat) then JBool false else JNull))
    (replicate rows JNull).

(** [clearAll]; [cols] is the state variable of that name. *)
Definition clearAll (cols : nat) (st : State) : State :=
  {| rows := rows st; rule := rule st; grid := newGrid (rows st) cols;
     isAnimating := false; hasGenerated := false |}.

(** [a[i] = v] on an array without holes: inside the array, or at its
    end, where JavaScript appends. [None] when [i] is past the end:
    JavaScript would leave holes, which these lists do not have. *)
Definition arr_set {A : Type} (a : list A) (i : nat) (v : A) : option (list A) :=
  if decide (i < length a)%nat then Some (<[i := v]> a)
  else if decide (i = length a) then Some (a ++ [v])
  else None.

(** [for (let i = 1; i < rows; i++) newGrid[i] = Array(cols).fill(null)] *)
Definition unset_rows (rows cols : nat) (g : Grid) : option Grid :=
  for_each (fun i g => arr_set g i (replicate cols JNull)) (seq 1 (rows - 1)) g.

(** [resetImage] *)
Definition resetImage (cols : nat) (st : State) : option State :=
  g ← unset_rows (rows st) cols (grid st);
  Some {| rows := rows st; rule := rule st; grid := g;
          isAnimating := false; hasGenerated := false |}.

(** [generateRandomSeed]; [draws i] is the outcome of the test
    [Math.random() > 0.5] at its call number [i]. *)
Definition generateRandomSeed (draws : nat → bool) (cols : nat) (st : State)
    : option State :=
  g ← arr_set (grid st) 0 ((fun i => JBool (draws i)) <$> seq 0 cols);
  g ← unset_rows (rows st) cols g;
  Some {| rows := rows st; rule := rule st; grid := g;
          isAnimating := isAnimating st; hasGenerated := false |}.

(** The corner of a [border-radius]: the radius or [0px]. *)
Definition corner_px (rounded : bool) (roundedCorners : Z) : string :=
  if rounded then pretty roundedCorners +:+ "px" else "0px".

(** The [borderRadius] that the preview puts in the style of the cell
    [cell] at [rowIndex], [colIndex]: one is assigned only under
    [roundedCorners > 0 && cell], and it lists top-left, top-right,
    bottom-right, bottom-left. [None] when the style gets none. *)
Definition cellBorderRadius (grid : Grid) (rows cols : nat) (roundedCorners : Z)
    (rowIndex colIndex : nat) (cell : jsval) : option string :=
  if (0 <? roundedCorners) && truthy cell then
    let hasTop := (0 <? Z.of_nat rowIndex)
      && truthy (grid_cell grid (rowIndex - 1) colIndex) in
    let hasBottom := (Z.of_nat rowIndex <? Z.of_nat rows - 1)
      && truthy (grid_cell grid (rowIndex + 1) colIndex) in
    let hasLeft := (0 <? Z.of_nat colIndex)
      && truthy (grid_cell grid rowIndex (colIndex - 1)) in
    let hasRight := (Z.of_nat colIndex <? Z.of_nat cols - 1)
      && truthy (grid_cell grid rowIndex (colIndex + 1)) in
    Some (corner_px (negb hasTop && negb hasLeft) roundedCorners +:+ " "
          +:+ corner_px (negb hasTop && negb hasRight) roundedCorners +:+ " "
          +:+ corner_px (negb hasBottom && negb hasRight) roundedCorners +:+ " "
          +:+ corner_px (negb hasBottom && negb hasLeft) roundedCorners)
  else None.

(** [grid.map((row, rowIndex) => row.map((cell, colIndex) => ...))]:
    the [borderRadius] of every cell that the preview draws. *)
Definition previewBorderRadius (grid : Grid) (rows cols : nat)
    (roundedCorners : Z) : list (list (option string)) :=
  imap (fun rowIndex row =>
    imap (fun colIndex cell =>
      cellBorderRadius grid rows cols roundedCorners rowIndex colIndex cell)
      row) grid.

(** ** Vocabulary of the specification *)

(** The cells of a [rows] by [cols] grid in row-major order, as the
    nested [for] loops visit them. *)
Definition cells (rows cols : nat) : list (nat * nat) :=
  r ← seq 0 rows; (fun c => (r, c)) <$> seq 0 cols.

Definition zcell (p : nat * nat) : Cell := (Z.of_nat p.1, Z.of_nat p.2).

(** Row-major order on cells. *)
Definition rm_lt (p q : Cell) : Prop := p.1 < q.1 ∨ (p.1 = q.1 ∧ p.2 < q.2).

Definition in_bounds (rows cols : nat) (p : Cell) : Prop :=
  0 ≤ p.1 < Z.of_nat rows ∧ 0 ≤ p.2 < Z.of_nat cols.

(** A filled cell of the grid: inside [rows] by [cols] and truthy. *)
Definition filled (grid : Grid) (rows cols : nat) (p : Cell) : Prop :=
  in_bounds rows cols p ∧
  truthy (grid_cell grid (Z.to_nat p.1) (Z.to_nat p.2)) = true.

(** A cell that is set in a work array. *)
Definition marked (rows cols : nat) (m : Matrix) (p : Cell) : Prop :=
  in_bounds rows cols p ∧ mget m (Z.to_nat p.1) (Z.to_nat p.2) = true.

(** The shape of a [rows] by [cols] work array. *)
Definition dims (rows cols : nat) (m : Matrix) : Prop :=
  length m = rows ∧ Forall (fun row => length row = cols) m.

(** Up, down, left or right neighbour. *)
Definition adjacent (p q : Cell) : Prop :=
  (q.1 = p.1 ∧ (q.2 = p.2 + 1 ∨ q.2 = p.2 - 1)) ∨
  (q.2 = p.2 ∧ (q.1 = p.1 + 1 ∨ q.1 = p.1 - 1)).

(** 4-connectivity inside a set of cells [on]. *)
Definition link (on : Cell → Prop) (p q : Cell) : Prop :=
  on p ∧ on q ∧ adjacent p q.

Definition connected (on : Cell → Prop) : Cell → Cell → Prop := rtc (link on).

(** A 4-connected component of [on], listed without repetition: a
    non-empty set of cells of [on] that holds, with each of its cells,
    exactly the cells connected to it. *)
Definition is_component (on : Cell → Prop) (component : list Cell) : Prop :=
  component ≠ [] ∧ NoDup component ∧
  (∀ p, p ∈ component → on p) ∧
  ∀ p, p ∈ component → ∀ q, q ∈ component ↔ connected on p q.

Definition least (m : Z) (l : list Z) : Prop := m ∈ l ∧ ∀ x, x ∈ l → m ≤ x.
Definition greatest (m : Z) (l : list Z) : Prop := m ∈ l ∧ ∀ x, x ∈ l → x ≤ m.

(** A rectangle of the vector document: pixel position and size, and
    the corner radius when it has one. *)
Record Rect : Type := mkRect {
  rect_x : Z;
  rect_y : Z;
  rect_width : Z;
  rect_height : Z;
  rect_radius : option Z
}.

Definition rect_markup (q : Rect) : string :=
  match rect_radius q with
  | Some r => rect_rounded (rect_x q) (rect_y q) (rect_width q) (rect_height q) r
  | None => rect_plain (rect_x q) (rect_y q) (rect_width q) (rect_height q)
  end.

Fixpoint concat_strings (l : list string) : string :=
  match l with
  | [] => EmptyString
  | s :: l' => s +:+ concat_strings l'
  end.

Definition document_markup (cols rows : nat) (cellSize : Z) (rects : list Rect)
    : string :=
  svg_envelope (Z.of_nat cols * cellSize) (Z.of_nat rows * cellSize)
    (concat_strings (rect_markup <$> rects)).

(** The rectangle of one filled cell, and the rectangle over the
    bounding box of a component. *)
Definition cell_rect (cellSize : Z) (p : nat * nat) : Rect :=
  {| rect_x := Z.of_nat p.2 * cellSize; rect_y := Z.of_nat p.1 * cellSize;
     rect_width := cellSize; rect_height := cellSize; rect_radius := None |}.

Definition covers_bounding_box (cellSize roundedCorners : Z)
    (component : list Cell) (q : Rect) : Prop :=
  ∃ minR maxR minC maxC,
    least minR (component.*1) ∧ greatest maxR (component.*1) ∧
    least minC (component.*2) ∧ greatest maxC (component.*2) ∧
    q = {| rect_x := minC * cellSize; rect_y := minR * cellSize;
           rect_width := (maxC - minC + 1) * cellSize;
           rect_height := (maxR - minR + 1) * cellSize;
           rect_radius := Some roundedCorners |}.

(** An unset cell read as an empty one. *)
Definition unset_as_empty (g : Grid) : Grid :=
  fmap (M := list)
    (fmap (M := list) (fun v => match v with JNull => JBool false | _ => v end)) g.

(** The rule index that a table stands for: its eight outputs read as
    binary digits, the output for 111 first. *)
Definition rule_of_table (t : RuleLookup) : Z :=
  128 * Z.b2z (k111 t) + 64 * Z.b2z (k110 t) + 32 * Z.b2z (k101 t)
  + 16 * Z.b2z (k100 t) + 8 * Z.b2z (k011 t) + 4 * Z.b2z (k010 t)
  + 2 * Z.b2z (k001 t) + Z.b2z (k000 t).

(** The seed of the example: fourteen empty cells with cell 7 filled. *)
Definition example_seed : list jsval :=
  <[7%nat := JBool true]> (replicate 14 (JBool false)).

(** The table read from right to left: the outputs for 110 and 011, and
    for 100 and 001, change places. *)
Definition mirror_table (t : RuleLookup) : RuleLookup :=
  {| k111 := k111 t; k110 := k011 t; k101 := k101 t; k100 := k001 t;
     k011 := k110 t; k010 := k010 t; k001 := k100 t; k000 := k000 t |}.

(** *** Invariants of the flood fill and of the scan *)

(** The cells not yet marked in [visited]: each marking removes one. *)
Definition unvisited (rows cols : nat) (visited : Matrix) : nat :=
  length (filter (fun d => mget visited d.1 d.2 = false) (cells rows cols)).

(** The four cells that the flood fill pushes for [p]. *)
Definition neighbours (p : Cell) : list Cell :=
  [(p.1, p.2 + 1); (p.1, p.2 - 1); (p.1 + 1, p.2); (p.1 - 1, p.2)].

(** The state of one flood fill started at [start] on the marks
    [visited0]: what holds before each iteration of the [while]. *)
Record flood_inv (rows cols : nat) (matrix visited0 : Matrix) (start : Cell)
    (visited : Matrix) (component stack : list Cell) : Prop := {
  fi_dims : dims rows cols visited;
  fi_visited : ∀ q, marked rows cols visited q
                    ↔ marked rows cols visited0 q ∨ q ∈ component;
  fi_nodup : NoDup component;
  fi_fresh : ∀ q, q ∈ component → ¬ marked rows cols visited0 q;
  fi_on : ∀ q, q ∈ component → marked rows cols matrix q;
  fi_conn : ∀ q, q ∈ component → connected (marked rows cols matrix) start q;
  fi_stack : ∀ s, s ∈ stack → s = start ∨ ∃ q, q ∈ component ∧ adjacent q s;
  fi_closed : ∀ q s, q ∈ component → adjacent q s → marked rows cols matrix s →
                marked rows cols visited s ∨ s ∈ stack;
  fi_head : (component = [] ∧ stack = [start]) ∨ head component = Some start
}.

(** A set of cells that no filled neighbour leaves. *)
Definition closed_in (on : Cell → Prop) (inside : Cell → Prop) : Prop :=
  ∀ q s, inside q → adjacent q s → on s → inside s.

(** What the scan has found once it has passed the cells [scanned]. *)
Record scan_inv (rows cols : nat) (matrix : Matrix) (scanned : list (nat * nat))
    (visited : Matrix) (components : list (list Cell)) : Prop := {
  si_dims : dims rows cols visited;
  si_visited : ∀ q, marked rows cols visited q ↔ q ∈ concat components;
  si_nodup : NoDup (concat components);
  si_on : ∀ q, q ∈ concat components → marked rows cols matrix q;
  si_scanned : ∀ d, d ∈ scanned → marked rows cols matrix (zcell d) →
                 marked rows cols visited (zcell d);
  si_components :
    Forall (fun component =>
      ∃ start, head component = Some start ∧ start ∈ zcell <$> scanned ∧
        (∀ q, q ∈ component → connected (marked rows cols matrix) start q) ∧
        closed_in (marked rows cols matrix) (.∈ component) ∧
        (∀ q, q ∈ component → q = start ∨ rm_lt start q)) components;
  si_order :
    StronglySorted
      (fun c1 c2 => ∃ p1 p2, head c1 = Some p1 ∧ head c2 = Some p2 ∧ rm_lt p1 p2)
      components
}.

(** The rectangle over the bounding box of a component, as data. *)
Definition bounding_rect (cellSize roundedCorners : Z) (component : list Cell)
    : option Rect :=
  minR ← Math_min (component.*1);
  maxR ← Math_max (component.*1);
  minC ← Math_min (component.*2);
  maxC ← Math_max (component.*2);
  Some {| rect_x := minC * cellSize; rect_y := minR * cellSize;
          rect_width := (maxC - minC + 1) * cellSize;
          rect_height := (maxR - minR + 1) * cellSize;
          rect_radius := Some roundedCorners |}.

(** The first cell of a component comes first in row-major order. *)
Definition starts_top_left (component : list Cell) : Prop :=
  ∃ start, head component = Some start ∧
    ∀ q, q ∈ component → q = start ∨ rm_lt start q.

(** The top-left-most cell of its 4-connected component of [on]: a
    cell of [on] that comes first, in row-major order, among the cells
    connected to it. *)
Definition top_left_of_component (on : Cell → Prop) (p : Cell) : Prop :=
  on p ∧ ∀ q, connected on p q → q = p ∨ rm_lt p q.

(** Components listed in the row-major order of their first cells. *)
Definition in_scan_order (components : list (list Cell)) : Prop :=
  StronglySorted
    (fun c1 c2 => ∃ p1 p2, head c1 = Some p1 ∧ head c2 = Some p2 ∧ rm_lt p1 p2)
    components.

(** The components of the set of cells [on]: they partition it, each
    is a 4-connected component, and they are in scan order. *)
Record found_components (on : Cell → Prop) (components : list (list Cell))
    : Prop := {
  fc_nodup : NoDup (concat components);
  fc_cover : ∀ q, q ∈ concat components ↔ on q;
  fc_components : Forall (is_component on) components;
  fc_top_left : Forall starts_top_left components;
  fc_order : in_scan_order components
}.

(** The state of the first version's scan against the state of the
    second version's: the same marks, and [path] holds the rectangles
    of the components collected so far. *)
Definition written (cellSize roundedCorners : Z)
    (s1 : Matrix * string) (s2 : Matrix * list (list Cell)) : Prop :=
  s1.1 = s2.1 ∧
  ∃ rects,
    Forall2 (fun c q => bounding_rect cellSize roundedCorners c = Some q)
      s2.2 rects ∧
    s1.2 = concat_strings (rect_markup <$> rects).

(** ** The rule engine *)

Section rule_engine.

Lemma length_repeat_char n c : String.length (repeat_char n c) = n.
Proof. induction n as [|n IH]; simpl; [done | by rewrite IH]. Qed.

Lemma rule_table_checked :
  Forall (fun r : Z =>
    String.length (padStart 8 "0"%char (toString2 r)) = 8%nat ∧
    Forall (fun i : nat =>
      String.get i (padStart 8 "0"%char (toString2 r))
        = Some (if Z.testbit r (7 - Z.of_nat i) then "1" else "0")%char ∧
      lookup_pattern (getRuleLookup r) (nth i patterns EmptyString)
        = JBool (Z.testbit r (7 - Z.of_nat i)))
      (seq 0 8))
    (seqZ 0 256).
Proof. apply (bool_decide_unpack _). by vm_compute. Qed.

(** C1. For a rule index in [0,255] the zero-padded binary string has
    eight digits, digit [i] from the left is bit [7 - i] of the index,
    and the table binds that bit to [patterns[i]]: "111" gets the most
    significant bit and "000" the least significant one. *)
Theorem getRuleLookup_msb_first (ruleNumber : Z) :
  0 ≤ ruleNumber ≤ 255 →
  String.length (padStart 8 "0"%char (toString2 ruleNumber)) = 8%nat ∧
  ∀ (i : nat) (pattern : string),
    patterns !! i = Some pattern →
    String.get i (padStart 8 "0"%char (toString2 ruleNumber))
      = Some (if Z.testbit ruleNumber (7 - Z.of_nat i) then "1" else "0")%char ∧
    lookup_pattern (getRuleLookup ruleNumber) pattern
      = JBool (Z.testbit ruleNumber (7 - Z.of_nat i)).
Proof.
  intros Hr.
  pose proof rule_table_checked as H.
  rewrite Forall_forall in H.
  destruct (H ruleNumber) as [Hlen Hbits]; [apply elem_of_seqZ; lia|].
  split; [done|]. intros i pattern Hi.
  rewrite Forall_forall in Hbits.
  assert (i < 8)%nat by (apply lookup_lt_Some in Hi; simpl in Hi; lia).
  destruct (Hbits i) as [Hg Hl]; [apply elem_of_seq; lia|].
  split; [done|].
  by rewrite <- (nth_lookup_Some _ _ EmptyString _ Hi).
Qed.

(** C1 at rule 30: the pattern 100 gets bit 4. *)
Lemma getRuleLookup_msb_first_witness :
  0 ≤ 30 ≤ 255 ∧
  lookup_pattern (getRuleLookup 30) "100" = JBool (Z.testbit 30 (7 - Z.of_nat 3)).
Proof.
  split; [lia|].
  destruct (getRuleLookup_msb_first 30) as [_ H]; [lia|].
  by destruct (H 3%nat "100"%string).
Defined.

(** *** The row step *)

Lemma bit_char_js_or v : bit_char (js_or v (JBool false)) = bit_char v.
Proof. unfold bit_char, js_or. by destruct (truthy v) eqn:E; rewrite ?E. Qed.

Lemma bit_char_truthy v : bit_char v = bit_char (JBool (truthy v)).
Proof. done. Qed.

Lemma length_applyRule prevRow table :
  length (applyRule prevRow table) = length prevRow.
Proof. apply length_imap. Qed.

Lemma length_step_padded table padded :
  length (step_padded table padded) = (length padded - 2)%nat.
Proof.
  induction padded as [|l [|c [|r rest]] IH]; simpl in *; try done.
  rewrite IH. lia.
Qed.

Lemma step_padded_lookup table padded i l c r :
  padded !! i = Some l → padded !! S i = Some c → padded !! S (S i) = Some r →
  step_padded table padded !! i
    = Some (lookup_pattern table
              (bit_char (JBool l) +:+ bit_char (JBool c) +:+ bit_char (JBool r))).
Proof.
  revert i. induction padded as [|a rest IH]; intros i Hl Hc Hr; [done|].
  destruct i as [|i].
  - destruct rest as [|b [|d rest']]; by simplify_eq/=.
  - specialize (IH i Hl Hc Hr).
    destruct rest as [|b [|d rest']]; [done..|]. exact IH.
Qed.

Lemma arr_get_nat a (i : nat) :
  arr_get a (Z.of_nat i) = default JUndefined (a !! i).
Proof.
  unfold arr_get. destruct (Z.ltb_spec (Z.of_nat i) 0); [lia|].
  by rewrite Nat2Z.id.
Qed.

(** The neighbourhood that [applyRule] reads at index [i]. *)
Lemma applyRule_lookup prevRow table i v :
  prevRow !! i = Some v →
  applyRule prevRow table !! i
    = Some (lookup_pattern table
        (bit_char (JBool (default false (truthy <$> match i with O => None | S j => prevRow !! j end)))
         +:+ bit_char v
         +:+ bit_char (JBool (default false (truthy <$> prevRow !! S i))))).
Proof.
  intros Hv. unfold applyRule. rewrite list_lookup_imap, Hv. simpl.
  do 2 f_equal. rewrite !bit_char_js_or. f_equal; [|f_equal].
  - destruct i as [|i]; [done|].
    replace (Z.of_nat (S i) - 1) with (Z.of_nat i) by lia.
    rewrite arr_get_nat. by destruct (prevRow !! i).
  - by rewrite arr_get_nat, Hv.
  - replace (Z.of_nat i + 1) with (Z.of_nat (S i)) by lia.
    rewrite arr_get_nat. by destruct (prevRow !! S i).
Qed.

(** C2. The row step is the rule table read along the row padded with
    one empty cell before index 0 and one after the last index: the
    neighbour outside the row is always empty, whatever the cell at the
    opposite edge holds. *)
Theorem applyRule_zero_boundary (prevRow : list jsval) (table : RuleLookup) :
  applyRule prevRow table
    = step_padded table (false :: (truthy <$> prevRow) ++ [false]).
Proof.
  apply (list_eq_same_length _ _ (length prevRow)).
  - rewrite length_step_padded. simpl. rewrite length_app, length_fmap. simpl. lia.
  - apply length_applyRule.
  - intros i x y Hi Hx Hy.
    destruct (lookup_lt_is_Some_2 prevRow i Hi) as [v Hv].
    rewrite (applyRule_lookup _ _ _ _ Hv) in Hx.
    set (padded := false :: (truthy <$> prevRow) ++ [false]) in *.
    assert (padded !! S i = Some (truthy v)) as Hc.
    { unfold padded. simpl. rewrite lookup_app_l by (rewrite length_fmap; lia).
      by rewrite list_lookup_fmap, Hv. }
    assert (padded !! i
            = Some (default false (truthy <$> match i with O => None | S j => prevRow !! j end))) as Hl.
    { unfold padded. destruct i as [|i]; [done|]. simpl.
      destruct (lookup_lt_is_Some_2 prevRow i ltac:(lia)) as [w Hw].
      rewrite lookup_app_l by (rewrite length_fmap; lia).
      by rewrite list_lookup_fmap, Hw. }
    assert (padded !! S (S i)
            = Some (default false (truthy <$> prevRow !! S i))) as Hr.
    { unfold padded. simpl. destruct (prevRow !! S i) as [w|] eqn:Hw.
      - rewrite lookup_app_l by (rewrite length_fmap; by eapply lookup_lt_Some).
        by rewrite list_lookup_fmap, Hw.
      - apply lookup_ge_None in Hw.
        rewrite lookup_app_r by (rewrite length_fmap; lia).
        rewrite length_fmap. by replace (S i - length prevRow)%nat with 0%nat by lia. }
    rewrite (step_padded_lookup _ _ _ _ _ _ Hl Hc Hr) in Hy.
    by simplify_eq.
Qed.

(** *** Row-by-row generation *)

Lemma animate_rows table k : ∀ currentRow pre row post,
  currentRow = S (length pre) → (k ≤ length post)%nat →
  animate table k currentRow (pre ++ row :: post)
    = Some (pre ++ generate row table (S k) ++ drop k post).
Proof.
  induction k as [|k IH]; intros currentRow pre row post -> Hk.
  - done.
  - destruct post as [|old post]; [simpl in Hk; lia|].
    cbn [animate]. unfold animate_step.
    rewrite decide_True by lia.
    replace (S (length pre) - 1)%nat with (length pre) by lia.
    rewrite (list_lookup_middle pre (old :: post) row (length pre) eq_refl).
    cbn [mbind option_bind].
    rewrite decide_True by (rewrite length_app; simpl; lia).
    assert (<[S (length pre):=applyRule row table]> (pre ++ row :: old :: post)
            = (pre ++ [row]) ++ applyRule row table :: post) as ->.
    { change (pre ++ row :: old :: post) with (pre ++ [row] ++ old :: post).
      rewrite app_assoc.
      replace (S (length pre)) with (length (pre ++ [row]) + 0)%nat
        by (rewrite length_app; simpl; lia).
      by rewrite insert_app_r. }
    cbn [mbind option_bind].
    rewrite (IH _ (pre ++ [row]) (applyRule row table) post);
      [|rewrite length_app; simpl; lia|simpl in Hk; lia].
    by rewrite <- app_assoc.
Qed.

Lemma generate_take seedRow table n j :
  (j ≤ n)%nat → take j (generate seedRow table n) = generate seedRow table j.
Proof.
  revert seedRow n. induction j as [|j IH]; intros seedRow n Hj; [done|].
  destruct n as [|n]; [lia|]. simpl. rewrite IH by lia. done.
Qed.

Lemma generate_lookup seedRow table n k :
  (k < n)%nat →
  generate seedRow table n !! k
    = Some (Nat.iter k (fun row => applyRule row table) seedRow).
Proof.
  revert seedRow n. induction k as [|k IH]; intros seedRow n Hk;
    (destruct n as [|n]; [lia|]); [done|].
  simpl. rewrite IH by lia. f_equal.
  clear. induction k as [|k IHk]; [done|]. simpl. by rewrite IHk.
Qed.

(** C9. A grid of [n] rows whose row 0 is the seed, generated one row
    at a time by the animation loop, is the batch grid: after [j] steps
    rows [0..j] are the first rows of the batch and the other rows are
    untouched, after [n - 1] steps the whole grid is the batch, and row
    [k] of the batch is the row step applied [k] times to the seed. *)
Theorem incremental_generation_is_batch
    (seedRow : list jsval) (table : RuleLookup) (n : nat) (rest : Grid) :
  (1 ≤ n)%nat → length rest = (n - 1)%nat →
  (∀ j, (j < n)%nat →
     animate table j 1 (seedRow :: rest)
       = Some (take (S j) (generate seedRow table n) ++ drop j rest)) ∧
  animate table (n - 1) 1 (seedRow :: rest) = Some (generate seedRow table n) ∧
  (∀ k, (k < n)%nat →
     generate seedRow table n !! k
       = Some (Nat.iter k (fun row => applyRule row table) seedRow)) ∧
  (∀ st, rows st = n → grid st = seedRow :: rest → isAnimating st = false →
     getRuleLookup (rule st) = table →
     generatePattern st
       = Some {| rows := n; rule := rule st; grid := generate seedRow table n;
                 isAnimating := false; hasGenerated := true |}).
Proof.
  intros Hn Hrest.
  assert (∀ j, (j < n)%nat →
     animate table j 1 (seedRow :: rest)
       = Some (take (S j) (generate seedRow table n) ++ drop j rest)) as Hsteps.
  { intros j Hj.
    pose proof (animate_rows table j 1 [] seedRow rest eq_refl ltac:(lia)) as H.
    simpl app in H. rewrite H. by rewrite generate_take by lia. }
  assert (animate table (n - 1) 1 (seedRow :: rest)
          = Some (generate seedRow table n)) as Hall.
  { rewrite Hsteps by lia.
    rewrite drop_ge by lia. rewrite app_nil_r.
    replace (S (n - 1)) with n by lia.
    by rewrite generate_take by lia. }
  split; [done|]. split; [done|].
  split; [intros k Hk; by apply generate_lookup|].
  intros st Hrows Hgrid Hanim Htable. unfold generatePattern.
  by rewrite Hanim, Htable, Hrows, Hgrid, Hall.
Qed.

(** C9 on a grid of three rows under rule 30. *)
Lemma incremental_generation_is_batch_witness :
  (1 ≤ 3)%nat ∧ length [[JNull; JNull; JNull]; [JNull; JNull; JNull]] = (3 - 1)%nat ∧
  animate (getRuleLookup 30) (3 - 1) 1
    [[JBool false; JBool true; JBool false];
     [JNull; JNull; JNull]; [JNull; JNull; JNull]]
    = Some (generate [JBool false; JBool true; JBool false] (getRuleLookup 30) 3).
Proof.
  split; [lia|]. split; [reflexivity|].
  apply (incremental_generation_is_batch
           [JBool false; JBool true; JBool false] (getRuleLookup 30) 3
           [[JNull; JNull; JNull]; [JNull; JNull; JNull]]); [lia | reflexivity].
Defined.

(** *** Rule indices outside [0,255] *)

Lemma string_app_cons a (s t : string) : String a s +:+ t = String a (s +:+ t).
Proof. reflexivity. Qed.

Lemma string_app_nil_r (s : string) : s +:+ EmptyString = s.
Proof. induction s as [|a s IH]; [done|]. by rewrite string_app_cons, IH. Qed.

Lemma string_app_assoc (s1 s2 s3 : string) :
  s1 +:+ (s2 +:+ s3) = (s1 +:+ s2) +:+ s3.
Proof. induction s1 as [|a s1 IH]; [done|]. by rewrite !string_app_cons, IH. Qed.

Lemma binary_digits_acc p acc :
  binary_digits p acc = binary_digits p EmptyString +:+ acc.
Proof.
  revert acc. induction p as [p IH|p IH|]; intros acc; simpl; [| |done].
  - rewrite (IH (String "1" acc)), (IH (String "1" EmptyString)).
    by rewrite <- string_app_assoc.
  - rewrite (IH (String "0" acc)), (IH (String "0" EmptyString)).
    by rewrite <- string_app_assoc.
Qed.

Lemma length_binary_digits p acc :
  (String.length acc < String.length (binary_digits p acc))%nat.
Proof.
  revert acc. induction p as [p IH|p IH|]; intros acc; simpl; [| |lia].
  - specialize (IH (String "1" acc)). simpl in IH. lia.
  - specialize (IH (String "0" acc)). simpl in IH. lia.
Qed.

Lemma length_toString2_ge_8 (n : Z) :
  128 ≤ n → (8 ≤ String.length (toString2 n))%nat.
Proof.
  intros Hn. destruct n as [|p|p]; [lia| |lia]. simpl.
  do 7 (destruct p as [p|p|]; [| |lia]); simpl;
    match goal with |- (_ ≤ String.length (binary_digits _ ?acc))%nat =>
      pose proof (length_binary_digits p acc) as H; simpl in H; lia
    end.
Qed.

Lemma padStart_long n c s :
  (n ≤ String.length s)%nat → padStart n c s = s.
Proof.
  intros H. unfold padStart. by replace (n - String.length s)%nat with 0%nat by lia.
Qed.

(** Past eight binary digits the table only reads the eight leading
    ones: the last digit of the index is dropped. *)
Lemma getRuleLookup_halves (ruleNumber : Z) :
  256 ≤ ruleNumber → getRuleLookup ruleNumber = getRuleLookup (ruleNumber `div` 2).
Proof.
  intros Hr.
  assert (∃ d, toString2 ruleNumber = toString2 (ruleNumber `div` 2) +:+ d) as [d Hd].
  { destruct ruleNumber as [|p|p]; [lia| |lia].
    destruct p as [p|p|]; [| |lia]; simpl toString2.
    - replace (Z.pos p~1 `div` 2) with (Z.pos p)
        by (apply (Z.div_unique _ 2 _ 1); lia).
      eexists. apply binary_digits_acc.
    - replace (Z.pos p~0 `div` 2) with (Z.pos p)
        by (apply (Z.div_unique _ 2 _ 0); lia).
      eexists. apply binary_digits_acc. }
  assert (128 ≤ ruleNumber `div` 2) as Hhalf
    by (apply Z.div_le_lower_bound; lia).
  pose proof (length_toString2_ge_8 (ruleNumber `div` 2) Hhalf) as Hlen.
  pose proof (length_toString2_ge_8 ruleNumber ltac:(lia)) as Hlen'.
  unfold getRuleLookup. rewrite !padStart_long by done.
  unfold char_is. rewrite Hd.
  by rewrite <- !(append_correct1 (toString2 (ruleNumber `div` 2)) d) by lia.
Qed.

Lemma animate_total table k : ∀ currentRow (g : Grid),
  (1 ≤ currentRow)%nat → (currentRow + k ≤ length g)%nat →
  is_Some (animate table k currentRow g).
Proof.
  induction k as [|k IH]; intros currentRow g Hc Hk; [done|].
  cbn [animate]. unfold animate_step. rewrite decide_True by lia.
  destruct (lookup_lt_is_Some_2 g (currentRow - 1) ltac:(lia)) as [row ->].
  cbn [mbind option_bind]. rewrite decide_True by lia. cbn [mbind option_bind].
  apply IH; [lia|]. rewrite length_insert. lia.
Qed.

(** C4 as the specification states it fails at the index 256: it is
    outside [0,255], yet [generatePattern] compiles a table and
    generates the rows. The table is that of rule 128, the eight leading
    binary digits of 256, not the table of the nearest valid index 255. *)
Lemma rule_256_is_compiled :
  ¬ (0 ≤ 256 ≤ 255) ∧
  generatePattern
    {| rows := 2; rule := 256;
       grid := [[JBool true; JBool true; JBool true]; [JNull; JNull; JNull]];
       isAnimating := false; hasGenerated := false |}
  = Some
    {| rows := 2; rule := 256;
       grid := [[JBool true; JBool true; JBool true];
                [JBool false; JBool true; JBool false]];
       isAnimating := false; hasGenerated := true |} ∧
  getRuleLookup 256 = getRuleLookup 128 ∧
  getRuleLookup 256 ≠ getRuleLookup 255.
Proof. split; [lia|]. split; [done|]. split; [done|]. by vm_compute. Qed.

(** C4, amended. Nothing validates the rule index: [generatePattern]
    compiles a table and generates the rows for whatever integer the
    state holds; an index of 256 or more gets the table of its half
    rounded down, so the table of its eight leading binary digits,
    which is not a clamp to 255. Indices outside [0,255] are kept out
    by the interface only: the rule list and the popular-rule pills
    offer indices in [0,255], so after any sequence of clicks the
    [rule] state, 30 at first, is in [0,255]. *)
Theorem rule_index_unvalidated :
  (∀ st, isAnimating st = false → length (grid st) = rows st →
     ∃ g, animate (getRuleLookup (rule st)) (rows st - 1) 1 (grid st) = Some g ∧
          generatePattern st
            = Some {| rows := rows st; rule := rule st; grid := g;
                      isAnimating := false; hasGenerated := true |}) ∧
  (∀ ruleNumber, 256 ≤ ruleNumber →
     getRuleLookup ruleNumber = getRuleLookup (ruleNumber `div` 2)) ∧
  getRuleLookup 256 ≠ getRuleLookup 255 ∧
  (∀ ruleSearch r, r ∈ filteredRules ruleSearch → 0 ≤ r ≤ 255) ∧
  (∀ r, r ∈ popularRules → 0 ≤ r ≤ 255) ∧
  (∀ events, 0 ≤ foldl setRule_on 30 events ≤ 255).
Proof.
  assert (∀ ruleSearch r, r ∈ filteredRules ruleSearch → 0 ≤ r ≤ 255) as Hlist.
  { intros ruleSearch r Hr. unfold filteredRules in Hr.
    apply list_elem_of_filter in Hr as [_ Hr]. apply elem_of_seqZ in Hr. lia. }
  assert (∀ r, r ∈ popularRules → 0 ≤ r ≤ 255) as Hpills.
  { intros r Hr. unfold popularRules in Hr.
    repeat (apply elem_of_cons in Hr as [->|Hr]; [lia|]).
    by apply elem_of_nil in Hr. }
  assert (∀ events rule0, 0 ≤ rule0 ≤ 255 →
            0 ≤ foldl setRule_on rule0 events ≤ 255) as Hevents.
  { induction events as [|e events IH]; intros rule0 H0; [done|].
    simpl. apply IH. destruct e as [ruleSearch i|i|]; simpl; [| |lia].
    - destruct (filteredRules ruleSearch !! i) as [r|] eqn:Hr; [|done].
      apply (Hlist ruleSearch). by eapply list_elem_of_lookup_2.
    - destruct (popularRules !! i) as [r|] eqn:Hr; [|done].
      apply Hpills. by eapply list_elem_of_lookup_2. }
  split; [|split; [|split; [|split; [done|split; [done|]]]]].
  - intros st Hanim Hlen.
    destruct (decide (rows st = 0)%nat) as [H0|H0].
    + exists (grid st). unfold generatePattern. by rewrite Hanim, H0.
    + destruct (animate_total (getRuleLookup (rule st)) (rows st - 1) 1 (grid st))
        as [g Hg]; [lia..|].
      exists g. split; [done|]. unfold generatePattern. by rewrite Hanim, Hg.
  - apply getRuleLookup_halves.
  - by vm_compute.
  - intros events. apply Hevents. lia.
Qed.

(** C4, amended, at the index 300. *)
Lemma rule_index_unvalidated_witness :
  isAnimating (mkState 2 300 [[JBool true; JBool false]; [JNull; JNull]] false false)
    = false ∧
  length (grid (mkState 2 300 [[JBool true; JBool false]; [JNull; JNull]] false false))
    = rows (mkState 2 300 [[JBool true; JBool false]; [JNull; JNull]] false false) ∧
  ∃ g, animate (getRuleLookup 300) (2 - 1) 1
         [[JBool true; JBool false]; [JNull; JNull]] = Some g ∧
       generatePattern
         (mkState 2 300 [[JBool true; JBool false]; [JNull; JNull]] false false)
       = Some (mkState 2 300 g false true).
Proof.
  split; [reflexivity|]. split; [reflexivity|].
  apply (proj1 rule_index_unvalidated
           (mkState 2 300 [[JBool true; JBool false]; [JNull; JNull]] false false));
    reflexivity.
Defined.

End rule_engine.

(** ** Loops and work arrays *)

Section loops.
Context {A S : Type}.

Lemma for_loop_app (body : A → S → S) l1 l2 s :
  for_loop body (l1 ++ l2) s = for_loop body l2 (for_loop body l1 s).
Proof. revert s. induction l1 as [|x l1 IH]; intros s; simpl; [done|apply IH]. Qed.

Lemma for_each_app (body : A → S → option S) l1 l2 s :
  for_each body (l1 ++ l2) s = for_each body l1 s ≫= for_each body l2.
Proof.
  revert s. induction l1 as [|x l1 IH]; intros s; simpl; [done|].
  destruct (body x s) as [s'|]; simpl; [apply IH|done].
Qed.

Lemma for_loop_ext (f g : A → S → S) l s :
  (∀ x t, x ∈ l → f x t = g x t) → for_loop f l s = for_loop g l s.
Proof.
  revert s. induction l as [|x l IH]; intros s Hfg; simpl; [done|].
  rewrite Hfg by left. apply IH. intros y t Hy. apply Hfg. by right.
Qed.

Lemma for_each_ext (f g : A → S → option S) l s :
  (∀ x t, x ∈ l → f x t = g x t) → for_each f l s = for_each g l s.
Proof.
  revert s. induction l as [|x l IH]; intros s Hfg; simpl; [done|].
  rewrite Hfg by left. destruct (g x s) as [s'|]; simpl; [|done].
  apply IH. intros y t Hy. apply Hfg. by right.
Qed.

(** A loop invariant over the part of the list already visited. *)
Lemma for_each_invariant (body : A → S → option S) (I : list A → S → Prop)
    (whole : list A) :
  (∀ visited x rest s, whole = visited ++ x :: rest → I visited s →
     ∃ s', body x s = Some s' ∧ I (visited ++ [x]) s') →
  ∀ rest visited s, whole = visited ++ rest → I visited s →
    ∃ s', for_each body rest s = Some s' ∧ I whole s'.
Proof.
  intros Hstep rest. induction rest as [|x rest IH]; intros visited s Hw HI.
  - exists s. split; [done|]. by rewrite Hw, app_nil_r.
  - destruct (Hstep visited x rest s Hw HI) as (s' & Hb & HI').
    destruct (IH (visited ++ [x]) s') as (s'' & Hr & HI''); [|done|].
    { by rewrite <- app_assoc. }
    exists s''. split; [|done]. simpl. by rewrite Hb.
Qed.
End loops.

Lemma for_loop_fmap {A B S : Type} (f : A → B) (body : B → S → S) l s :
  for_loop body (f <$> l) s = for_loop (fun x => body (f x)) l s.
Proof. revert s. induction l as [|x l IH]; intros s; simpl; [done|apply IH]. Qed.

Lemma for_each_fmap {A B S : Type} (f : A → B) (body : B → S → option S) l s :
  for_each body (f <$> l) s = for_each (fun x => body (f x)) l s.
Proof.
  revert s. induction l as [|x l IH]; intros s; simpl; [done|].
  destruct (body (f x) s); simpl; [apply IH|done].
Qed.

(** The nested [for r] / [for c] loops visit [cells rows cols]. *)
Lemma for_loop_cells {S : Type} (body : nat → nat → S → S) rows cols s :
  for_loop (fun r s => for_loop (fun c s => body r c s) (seq 0 cols) s)
    (seq 0 rows) s
  = for_loop (fun p s => body p.1 p.2 s) (cells rows cols) s.
Proof.
  unfold cells. generalize (seq 0 rows) as rs. intros rs. revert s.
  induction rs as [|r rs IH]; intros s; [done|].
  cbn [for_loop mbind list_bind]. rewrite for_loop_app, for_loop_fmap. apply IH.
Qed.

Lemma for_each_cells {S : Type} (body : nat → nat → S → option S) rows cols s :
  for_each (fun r s => for_each (fun c s => body r c s) (seq 0 cols) s)
    (seq 0 rows) s
  = for_each (fun p s => body p.1 p.2 s) (cells rows cols) s.
Proof.
  unfold cells. generalize (seq 0 rows) as rs. intros rs. revert s.
  induction rs as [|r rs IH]; intros s; [done|].
  cbn [for_each mbind list_bind]. rewrite for_each_app, for_each_fmap.
  destruct (for_each _ (seq 0 cols) s) as [s'|]; [apply IH|done].
Qed.

Lemma elem_of_cells rows cols p :
  p ∈ cells rows cols ↔ (p.1 < rows)%nat ∧ (p.2 < cols)%nat.
Proof.
  unfold cells. rewrite list_elem_of_bind. split.
  - intros (r & Hp & Hr). apply list_elem_of_fmap in Hp as (c & -> & Hc).
    apply elem_of_seq in Hr, Hc. simpl. lia.
  - intros [Hr Hc]. exists p.1. split; [|apply elem_of_seq; lia].
    apply list_elem_of_fmap. exists p.2. split; [by destruct p|apply elem_of_seq; lia].
Qed.

Lemma in_bounds_zcell rows cols (p : Cell) :
  in_bounds rows cols p ↔ ∃ d, d ∈ cells rows cols ∧ p = zcell d.
Proof.
  split.
  - intros [Hr Hc]. exists (Z.to_nat p.1, Z.to_nat p.2). split.
    + apply elem_of_cells. simpl. lia.
    + destruct p as [r c]. unfold zcell. simpl in *. f_equal; lia.
  - intros (d & Hd & ->). apply elem_of_cells in Hd. unfold in_bounds, zcell.
    simpl. lia.
Qed.

Lemma cells_sorted rows cols :
  StronglySorted rm_lt (zcell <$> cells rows cols).
Proof.
  unfold cells. induction rows as [|n IH]; [constructor|].
  rewrite seq_S, bind_app, fmap_app. simpl.
  apply StronglySorted_app_2; [|done|].
  - intros p q Hp Hq.
    apply list_elem_of_fmap in Hp as (d & -> & Hd).
    apply list_elem_of_fmap in Hq as (e & -> & He).
    apply (elem_of_cells n cols) in Hd.
    rewrite app_nil_r in He. apply list_elem_of_fmap in He as (c & -> & _).
    left. simpl. lia.
  - rewrite app_nil_r. rewrite <- list_fmap_compose.
    apply (StronglySorted_fmap _ lt).
    + intros c c' Hc. right. simpl. lia.
    + clear. generalize 0%nat as start. induction cols as [|k IHk]; intros start;
        [constructor|].
      simpl. constructor; [apply IHk|].
      apply Forall_forall. intros x Hx. apply elem_of_seq in Hx. lia.
Qed.

Section work_arrays.
Context (rows cols : nat).

Lemma dims_new_matrix : dims rows cols (new_matrix rows cols).
Proof.
  split; [apply length_replicate|].
  apply Forall_replicate, length_replicate.
Qed.

Lemma mget_new_matrix r c : mget (new_matrix rows cols) r c = false.
Proof.
  unfold mget, new_matrix.
  destruct (replicate rows (replicate cols false) !! r) as [row|] eqn:Hr; [|done].
  apply lookup_replicate in Hr as [-> _]. simpl.
  destruct (replicate cols false !! c) as [b|] eqn:Hc; [|done].
  by apply lookup_replicate in Hc as [-> _].
Qed.

Lemma dims_mset m r c v : dims rows cols m → dims rows cols (mset m r c v).
Proof.
  intros [Hlen Hrows]. unfold mset. split; [by rewrite length_alter|].
  apply Forall_alter; [done|]. intros row _ Hrow. by rewrite length_insert.
Qed.

Lemma mget_mset m r c v r' c' :
  dims rows cols m → (r < rows)%nat → (c < cols)%nat →
  mget (mset m r c v) r' c'
    = if decide ((r, c) = (r', c')) then v else mget m r' c'.
Proof.
  intros [Hlen Hrows] Hr Hc. unfold mget, mset.
  rewrite list_lookup_alter. destruct (decide (r = r')) as [<-|Hne].
  - destruct (lookup_lt_is_Some_2 m r ltac:(lia)) as [row Hrow].
    rewrite Hrow. simpl.
    rewrite Forall_lookup in Hrows. specialize (Hrows r row Hrow).
    rewrite list_lookup_insert.
    destruct (decide (c = c')) as [<-|Hne].
    + rewrite decide_True by (split; [done|lia]). by rewrite decide_True.
    + rewrite decide_False by naive_solver.
      by rewrite decide_False by naive_solver.
  - by rewrite decide_False by naive_solver.
Qed.

Lemma marked_mset m (p q : Cell) :
  dims rows cols m → in_bounds rows cols p →
  marked rows cols (mset m (Z.to_nat p.1) (Z.to_nat p.2) true) q
    ↔ q = p ∨ marked rows cols m q.
Proof.
  intros Hm Hp. unfold marked.
  rewrite mget_mset by (done || (destruct Hp; lia)).
  destruct Hp as [Hp1 Hp2]. destruct p as [pr pc], q as [qr qc]. simpl in *.
  unfold in_bounds. simpl. case_decide as Heq.
  - injection Heq as Hr Hc. split.
    + intros [[Hq1 Hq2] _]. left. f_equal; lia.
    + intros [[= -> ->]|[Hq _]]; (split; [lia|done]).
  - split.
    + intros [Hq Hg]. by right.
    + intros [[= -> ->]|H]; [by destruct Heq|done].
Qed.

Lemma fill_loop (grid : Grid) l m :
  dims rows cols m → (∀ p, p ∈ l → p ∈ cells rows cols) →
  dims rows cols
    (for_loop (fun p m =>
       if truthy (grid_cell grid p.1 p.2) then mset m p.1 p.2 true else m) l m) ∧
  ∀ r c,
    mget (for_loop (fun p m =>
       if truthy (grid_cell grid p.1 p.2) then mset m p.1 p.2 true else m) l m) r c
      = true
    ↔ mget m r c = true ∨ ((r, c) ∈ l ∧ truthy (grid_cell grid r c) = true).
Proof.
  revert m. induction l as [|p l IH]; intros m Hm Hl.
  - split; [done|]. intros r c. simpl. split; [by left|].
    intros [H|[H _]]; [done|]. by apply elem_of_nil in H.
  - simpl.
    assert (p ∈ cells rows cols) as Hp by (apply Hl; left).
    apply elem_of_cells in Hp as [Hp1 Hp2].
    destruct (IH (if truthy (grid_cell grid p.1 p.2)
                  then mset m p.1 p.2 true else m)) as [Hd Hget].
    { destruct (truthy _); [by apply dims_mset|done]. }
    { intros q Hq. apply Hl. by right. }
    split; [done|]. intros r c. rewrite Hget, elem_of_cons.
    destruct (truthy (grid_cell grid p.1 p.2)) eqn:Ht.
    + rewrite mget_mset by done. case_decide as Heq.
      * destruct p as [pr pc]. simpl in *. simplify_eq. naive_solver.
      * split; [naive_solver|]. intros [H|[[Hrc|H] H']]; [by left| |by right].
        destruct Heq. by subst p.
    + split; [naive_solver|]. intros [H|[[Hrc|H] H']]; [by left| |by right].
      subst p. simpl in Ht. congruence.
Qed.

Lemma build_matrix_flat (grid : Grid) :
  build_matrix grid rows cols
  = for_loop (fun p m =>
      if truthy (grid_cell grid p.1 p.2) then mset m p.1 p.2 true else m)
      (cells rows cols) (new_matrix rows cols).
Proof.
  unfold build_matrix.
  apply (for_loop_cells
           (fun r c m => if truthy (grid_cell grid r c) then mset m r c true else m)).
Qed.

Lemma dims_build_matrix (grid : Grid) :
  dims rows cols (build_matrix grid rows cols).
Proof.
  rewrite build_matrix_flat.
  by apply (fill_loop grid (cells rows cols) _ dims_new_matrix).
Qed.

(** The cells set in [matrix] are the filled cells of the grid. *)
Lemma marked_build_matrix (grid : Grid) (p : Cell) :
  marked rows cols (build_matrix grid rows cols) p ↔ filled grid rows cols p.
Proof.
  unfold marked, filled. rewrite build_matrix_flat.
  destruct (fill_loop grid (cells rows cols) (new_matrix rows cols)) as [_ H];
    [apply dims_new_matrix|done|].
  rewrite H, mget_new_matrix. split.
  - intros [Hb [?|[_ Ht]]]; done.
  - intros [Hb Ht]. split; [done|]. right. split; [|done].
    apply elem_of_cells. destruct Hb. simpl. lia.
Qed.
End work_arrays.

(** ** The flood fill *)

Lemma adjacent_neighbours (p s : Cell) : adjacent p s ↔ s ∈ neighbours p.
Proof.
  unfold adjacent, neighbours. destruct p as [pr pc], s as [sr sc]. simpl.
  rewrite !elem_of_cons, elem_of_nil. split.
  - intros [[-> [->| ->]]|[-> [->| ->]]]; naive_solver.
  - intros [[= -> ->]|[[= -> ->]|[[= -> ->]|[[= -> ->]|[]]]]]; lia.
Qed.

Lemma adjacent_sym (p q : Cell) : adjacent p q → adjacent q p.
Proof. unfold adjacent. lia. Qed.

Lemma link_sym on (p q : Cell) : link on p q → link on q p.
Proof. intros (Hp & Hq & Ha). split; [done|]. split; [done|by apply adjacent_sym]. Qed.

Lemma connected_on on (p q : Cell) : on p → connected on p q → on q.
Proof. intros Hp Hc. induction Hc as [|x y z (_ & Hy & _) _ IH]; auto. Qed.

Lemma connected_closed on (inside : Cell → Prop) (p q : Cell) :
  closed_in on inside → inside p → connected on p q → inside q.
Proof.
  intros Hclosed Hp Hc. induction Hc as [|x y z (_ & Hy & Ha) _ IH]; [done|].
  apply IH. by apply (Hclosed x y).
Qed.

Lemma filter_length_mono {A : Type} (P Q : A → Prop)
    `{!∀ x, Decision (P x)} `{!∀ x, Decision (Q x)} (l : list A) :
  (∀ y, y ∈ l → Q y → P y) →
  (length (filter Q l) ≤ length (filter P l))%nat ∧
  ∀ x, x ∈ l → P x → ¬ Q x → (length (filter Q l) < length (filter P l))%nat.
Proof.
  induction l as [|a l IH]; intros HQP.
  - split; [done|]. intros x Hx. by apply elem_of_nil in Hx.
  - destruct IH as [IHle IHlt]; [intros y Hy; apply HQP; by right|].
    rewrite !filter_cons.
    assert (Q a → P a) as Ha by (apply HQP; left).
    split.
    + destruct (decide (Q a)), (decide (P a)); simpl; try lia. tauto.
    + intros x Hx HP HnQ. apply elem_of_cons in Hx as [->|Hx].
      * rewrite decide_False, decide_True by done. simpl. lia.
      * specialize (IHlt x Hx HP HnQ).
        destruct (decide (Q a)), (decide (P a)); simpl; try lia. tauto.
Qed.

Lemma length_cells rows cols : length (cells rows cols) = (rows * cols)%nat.
Proof.
  unfold cells.
  assert (∀ rs : list nat,
    length (rs ≫= fun r => (fun c => (r, c)) <$> seq 0 cols)
    = (length rs * cols)%nat) as H.
  { induction rs as [|r rs IH]; [done|].
    cbn [mbind list_bind length]. rewrite length_app, length_fmap, length_seq.
    rewrite IH. lia. }
  by rewrite H, length_seq.
Qed.

Section flood_fill.
Context (rows cols : nat) (matrix visited0 : Matrix) (start : Cell).
Hypothesis Hstart_on : marked rows cols matrix start.
Hypothesis Hstart_fresh : ¬ marked rows cols visited0 start.

Lemma skip_cell_false visited p :
  skip_cell rows cols matrix visited p = false
  ↔ marked rows cols matrix p ∧ ¬ marked rows cols visited p.
Proof.
  unfold skip_cell, marked, in_bounds. rewrite !orb_false_iff.
  rewrite negb_false_iff, !Z.ltb_ge, !Z.geb_leb, !Z.leb_gt.
  destruct (mget visited _ _); naive_solver lia.
Qed.

Lemma skip_cell_true visited p :
  skip_cell rows cols matrix visited p = true →
  marked rows cols matrix p → marked rows cols visited p.
Proof.
  intros Hskip Hon. split; [apply Hon|].
  destruct (mget visited _ _) eqn:Hv; [done|].
  assert (skip_cell rows cols matrix visited p = false); [|congruence].
  apply skip_cell_false. split; [done|]. intros [_ H]. congruence.
Qed.

Lemma unvisited_le visited : (unvisited rows cols visited ≤ rows * cols)%nat.
Proof. unfold unvisited. rewrite <- length_cells. apply length_filter. Qed.

Lemma unvisited_mset visited (p : Cell) :
  dims rows cols visited → in_bounds rows cols p →
  ¬ marked rows cols visited p →
  (unvisited rows cols (mset visited (Z.to_nat p.1) (Z.to_nat p.2) true)
   < unvisited rows cols visited)%nat.
Proof.
  intros Hd Hp Hfresh. unfold unvisited.
  assert ((Z.to_nat p.1 < rows)%nat ∧ (Z.to_nat p.2 < cols)%nat) as [Hr Hc]
    by (destruct Hp; lia).
  eapply (filter_length_mono _ _ (cells rows cols)).
  - intros d _. rewrite (mget_mset rows cols) by done.
    case_decide; [done|]. done.
  - apply (elem_of_cells rows cols (Z.to_nat p.1, Z.to_nat p.2)). done.
  - simpl. destruct (mget visited _ _) eqn:Hv; [|done].
    destruct Hfresh. by split.
  - simpl. rewrite (mget_mset rows cols) by done. by rewrite decide_True.
Qed.

Lemma flood_inv_start :
  dims rows cols visited0 →
  flood_inv rows cols matrix visited0 start visited0 [] [start].
Proof.
  intros Hd. split; try done.
  - intros q. split; [by left|]. intros [H|H]; [done|]. by apply elem_of_nil in H.
  - constructor.
  - intros q H. by apply elem_of_nil in H.
  - intros q H. by apply elem_of_nil in H.
  - intros q H. by apply elem_of_nil in H.
  - intros s Hs. left. by apply list_elem_of_singleton in Hs.
  - intros q s H. by apply elem_of_nil in H.
  - by left.
Qed.

(** Skipping the popped cell keeps the invariant. *)
Lemma flood_inv_skip visited component p stack :
  flood_inv rows cols matrix visited0 start visited component (p :: stack) →
  skip_cell rows cols matrix visited p = true →
  flood_inv rows cols matrix visited0 start visited component stack.
Proof.
  intros [Hd Hvis Hnd Hfresh Hon Hconn Hstack Hclosed Hhead] Hskip.
  split; try done.
  - intros s Hs. apply Hstack. by right.
  - intros q s Hq Ha Hs.
    destruct (Hclosed q s Hq Ha Hs) as [H|H]; [by left|].
    apply elem_of_cons in H as [->|H]; [|by right].
    left. by apply skip_cell_true.
  - destruct Hhead as [[-> [= -> ->]]|H]; [|by right].
    apply skip_cell_true in Hskip; [|done].
    apply Hvis in Hskip as [H|H]; [done|]. by apply elem_of_nil in H.
Qed.

(** Marking the popped cell and pushing its neighbours keeps it too. *)
Lemma flood_inv_mark visited component p stack :
  flood_inv rows cols matrix visited0 start visited component (p :: stack) →
  skip_cell rows cols matrix visited p = false →
  flood_inv rows cols matrix visited0 start
    (mset visited (Z.to_nat p.1) (Z.to_nat p.2) true)
    (component ++ [p]) (neighbours p ++ stack).
Proof.
  intros [Hd Hvis Hnd Hfresh Hon Hconn Hstack Hclosed Hhead] Hskip.
  apply skip_cell_false in Hskip as [Hp Hpfresh].
  assert (in_bounds rows cols p) as Hpb by apply Hp.
  assert (∀ q, marked rows cols
                 (mset visited (Z.to_nat p.1) (Z.to_nat p.2) true) q
               ↔ q = p ∨ marked rows cols visited q) as Hmark
    by (intros q; by apply marked_mset).
  split.
  - by apply dims_mset.
  - intros q. rewrite Hmark, Hvis, elem_of_app, list_elem_of_singleton. tauto.
  - apply NoDup_app. split; [done|]. split; [|apply NoDup_singleton].
    intros q Hq Hq'. apply list_elem_of_singleton in Hq' as ->.
    apply Hpfresh, Hvis. by right.
  - intros q Hq Hq0. apply elem_of_app in Hq as [Hq|Hq]; [by apply (Hfresh q)|].
    apply list_elem_of_singleton in Hq as ->. apply Hpfresh, Hvis. by left.
  - intros q Hq. apply elem_of_app in Hq as [Hq|Hq]; [by apply Hon|].
    by apply list_elem_of_singleton in Hq as ->.
  - intros q Hq. apply elem_of_app in Hq as [Hq|Hq]; [by apply Hconn|].
    apply list_elem_of_singleton in Hq as ->.
    destruct (Hstack p) as [->|(q & Hq & Ha)]; [by left|apply rtc_refl|].
    eapply rtc_r; [by apply Hconn|]. split; [by apply Hon|]. done.
  - intros s Hs. apply elem_of_app in Hs as [Hs|Hs].
    + right. exists p. split; [|by apply adjacent_neighbours].
      apply elem_of_app. right. by apply list_elem_of_singleton.
    + destruct (Hstack s) as [->|(q & Hq & Ha)]; [by right|by left|].
      right. exists q. split; [|done]. apply elem_of_app. by left.
  - intros q s Hq Ha Hs. rewrite Hmark, elem_of_app.
    apply elem_of_app in Hq as [Hq|Hq].
    + destruct (Hclosed q s Hq Ha Hs) as [H|H]; [left; by right|].
      apply elem_of_cons in H as [->|H]; [left; by left|right; by right].
    + apply list_elem_of_singleton in Hq as ->.
      right. left. by apply adjacent_neighbours.
  - right. rewrite head_snoc.
    destruct Hhead as [[-> [= -> ->]]|H]; [done|by rewrite H].
Qed.

(** With enough fuel the loop ends, and in a state that satisfies the
    invariant with an empty stack. *)
Lemma floodFill_invariant fuel : ∀ visited component stack,
  flood_inv rows cols matrix visited0 start visited component stack →
  (length stack + 4 * unvisited rows cols visited ≤ fuel)%nat →
  ∃ visited' component',
    floodFill fuel rows cols matrix visited component stack
      = Some (visited', component') ∧
    flood_inv rows cols matrix visited0 start visited' component' [].
Proof.
  induction fuel as [|fuel IH]; intros visited component stack Hinv Hfuel.
  - destruct stack as [|p stack]; [by eexists _, _|]. simpl in Hfuel. lia.
  - destruct stack as [|p stack]; [by eexists _, _|].
    cbn [floodFill]. destruct (skip_cell rows cols matrix visited p) eqn:Hskip.
    + apply IH; [by eapply flood_inv_skip|]. simpl in Hfuel. lia.
    + pose proof (flood_inv_mark _ _ _ _ Hinv Hskip) as Hinv'.
      apply skip_cell_false in Hskip as [Hp Hpfresh].
      pose proof (unvisited_mset visited p (fi_dims _ _ _ _ _ _ _ _ Hinv)
                    (proj1 Hp) Hpfresh) as Hlt.
      destruct p as [cr cc]. apply IH; [done|].
      cbn [length fst snd] in *. lia.
Qed.

Lemma floodFill_start :
  dims rows cols visited0 →
  ∃ visited' component',
    floodFill (flood_budget rows cols) rows cols matrix visited0 [] [start]
      = Some (visited', component') ∧
    flood_inv rows cols matrix visited0 start visited' component' [].
Proof.
  intros Hd. apply floodFill_invariant; [by apply flood_inv_start|].
  pose proof (unvisited_le visited0). unfold flood_budget. simpl. lia.
Qed.
End flood_fill.

(** ** The scan that finds the components *)

Lemma link_symmetric on : Symmetric (link on).
Proof. intros p q. apply link_sym. Qed.

Lemma connected_sym on (p q : Cell) : connected on p q → connected on q p.
Proof.
  intros H.
  destruct (@rtc_equivalence _ (link on) (link_symmetric on)) as [_ Hsym _].
  by apply Hsym.
Qed.

Lemma marked_zcell rows cols m d :
  marked rows cols m (zcell d) ↔ d ∈ cells rows cols ∧ mget m d.1 d.2 = true.
Proof.
  unfold marked, in_bounds, zcell. rewrite elem_of_cells. simpl.
  rewrite !Nat2Z.id. split; intros [H ?]; (split; [lia|done]).
Qed.

Lemma NoDup_concat_elem {A : Type} (ls : list (list A)) (l : list A) :
  NoDup (concat ls) → l ∈ ls → NoDup l.
Proof.
  induction ls as [|a ls IH]; intros Hnd Hl; [by apply elem_of_nil in Hl|].
  simpl in Hnd. apply NoDup_app in Hnd as (Ha & _ & Hls).
  apply elem_of_cons in Hl as [->|Hl]; [done|by apply IH].
Qed.

Lemma elem_of_concat {A : Type} (x : A) (ls : list (list A)) :
  x ∈ concat ls ↔ ∃ l, x ∈ l ∧ l ∈ ls.
Proof.
  induction ls as [|a ls IH]; simpl.
  - split; [intros H; by apply elem_of_nil in H|].
    intros (l & _ & H). by apply elem_of_nil in H.
  - rewrite elem_of_app, IH. split.
    + intros [H|(l & Hx & Hl)]; [exists a; split; [done|left]|].
      exists l. split; [done|by right].
    + intros (l & Hx & Hl). apply elem_of_cons in Hl as [->|Hl]; [by left|].
      right. by exists l.
Qed.

Lemma concat_snoc {A : Type} (ls : list (list A)) (l : list A) :
  concat (ls ++ [l]) = concat ls ++ l.
Proof. rewrite concat_app. simpl. by rewrite app_nil_r. Qed.

Section scan.
Context (rows cols : nat) (matrix : Matrix).

Lemma scan_inv_start :
  scan_inv rows cols matrix [] (new_matrix rows cols) [].
Proof.
  split.
  - apply dims_new_matrix.
  - intros q. unfold marked. rewrite mget_new_matrix. simpl.
    split; [by intros [_ ?]|]. intros H. by apply elem_of_nil in H.
  - constructor.
  - intros q H. by apply elem_of_nil in H.
  - intros d H. by apply elem_of_nil in H.
  - constructor.
  - constructor.
Qed.

Lemma scan_inv_components_mono scanned d components :
  Forall (fun component =>
    ∃ start, head component = Some start ∧ start ∈ zcell <$> scanned ∧
      (∀ q, q ∈ component → connected (marked rows cols matrix) start q) ∧
      closed_in (marked rows cols matrix) (.∈ component) ∧
      (∀ q, q ∈ component → q = start ∨ rm_lt start q)) components →
  Forall (fun component =>
    ∃ start, head component = Some start ∧ start ∈ zcell <$> (scanned ++ [d]) ∧
      (∀ q, q ∈ component → connected (marked rows cols matrix) start q) ∧
      closed_in (marked rows cols matrix) (.∈ component) ∧
      (∀ q, q ∈ component → q = start ∨ rm_lt start q)) components.
Proof.
  intros Hall. eapply Forall_impl; [exact Hall|].
  intros component (start & Hh & Hs & H).
  exists start. split; [done|]. split; [|done].
  rewrite fmap_app. apply elem_of_app. by left.
Qed.

(** A cell that starts no flood fill. *)
Lemma scan_inv_pass scanned d visited components :
  d ∈ cells rows cols →
  mget matrix d.1 d.2 && negb (mget visited d.1 d.2) = false →
  scan_inv rows cols matrix scanned visited components →
  scan_inv rows cols matrix (scanned ++ [d]) visited components.
Proof.
  intros Hd Hcond [Hdims Hvis Hnd Hon Hscanned Hcomps Horder].
  split; try done.
  - intros e He Hm. apply elem_of_app in He as [He|He]; [by apply Hscanned|].
    apply list_elem_of_singleton in He as ->.
    apply marked_zcell. split; [done|].
    apply marked_zcell in Hm as [_ Hm]. rewrite Hm in Hcond. simpl in Hcond.
    by apply negb_false_iff in Hcond.
  - by apply scan_inv_components_mono.
Qed.

(** A cell that starts a flood fill, once the flood fill has ended. *)
Lemma scan_inv_found scanned d rest visited components visited' component :
  cells rows cols = scanned ++ d :: rest →
  marked rows cols matrix (zcell d) →
  ¬ marked rows cols visited (zcell d) →
  scan_inv rows cols matrix scanned visited components →
  flood_inv rows cols matrix visited (zcell d) visited' component [] →
  head component = Some (zcell d) ∧
  scan_inv rows cols matrix (scanned ++ [d]) visited' (components ++ [component]).
Proof.
  intros Hcells Hd Hdfresh [Hdims Hvis Hnd Hon Hscanned Hcomps Horder]
    [Fdims Fvis Fnd Ffresh Fon Fconn Fstack Fclosed Fhead].
  assert (head component = Some (zcell d)) as Hhead
    by (by destruct Fhead as [[_ ?]|?]).
  assert (zcell d ∈ component) as Hin.
  { destruct component as [|a component]; [done|]. simpl in Hhead.
    injection Hhead as ->. left. }
  pose proof (cells_sorted rows cols) as Hsorted.
  rewrite Hcells, fmap_app, fmap_cons in Hsorted.
  split; [done|]. split.
  - done.
  - intros q. rewrite concat_snoc, elem_of_app, Fvis, Hvis. done.
  - rewrite concat_snoc. apply NoDup_app. split; [done|]. split; [|done].
    intros q Hq Hq'. apply (Ffresh q Hq'). by apply Hvis.
  - intros q. rewrite concat_snoc, elem_of_app. intros [Hq|Hq]; [by apply Hon|].
    by apply Fon.
  - intros e He Hm. apply Fvis. apply elem_of_app in He as [He|He].
    + left. by apply Hscanned.
    + apply list_elem_of_singleton in He as ->. by right.
  - apply Forall_app. split; [by apply scan_inv_components_mono|].
    apply Forall_singleton. exists (zcell d). split; [done|]. split.
    { rewrite fmap_app. apply elem_of_app. right. simpl. left. }
    split; [done|]. split.
    + intros q s Hq Ha Hs. simpl.
      destruct (Fclosed q s Hq Ha Hs) as [H|H]; [|by apply elem_of_nil in H].
      apply Fvis in H as [H|H]; [|done].
      exfalso. apply (Ffresh q Hq). apply Hvis.
      apply Hvis in H. apply elem_of_concat in H as (c & Hsc & Hc).
      apply elem_of_concat. exists c. split; [|done].
      rewrite Forall_forall in Hcomps.
      destruct (Hcomps c Hc) as (_ & _ & _ & _ & Hclosed & _).
      apply (Hclosed s q Hsc); [by apply adjacent_sym|by apply Fon].
    + intros q Hq.
      destruct (proj1 (in_bounds_zcell rows cols q)) as (e & He & ->);
        [apply (Fon q Hq)|].
      rewrite Hcells in He. apply elem_of_app in He as [He|He].
      * exfalso. apply (Ffresh _ Hq). apply Hscanned; [done|]. by apply Fon.
      * apply elem_of_cons in He as [->|He]; [by left|]. right.
        apply StronglySorted_app_1_r in Hsorted.
        apply StronglySorted_inv in Hsorted as [_ Hall].
        rewrite Forall_forall in Hall. apply Hall.
        by apply list_elem_of_fmap_2.
  - apply StronglySorted_app_2; [|done|by repeat constructor].
    intros c1 c2 Hc1 Hc2. apply list_elem_of_singleton in Hc2 as ->.
    rewrite Forall_forall in Hcomps.
    destruct (Hcomps c1 Hc1) as (p1 & Hp1 & Hs1 & _).
    exists p1, (zcell d). split; [done|]. split; [done|].
    eapply (StronglySorted_app_1_elem_of _ _ _ _ _ Hsorted); [done|left].
Qed.
End scan.

Lemma connected_iff (on on' : Cell → Prop) (p q : Cell) :
  (∀ x, on x ↔ on' x) → connected on p q → connected on' p q.
Proof.
  intros Hiff Hc. induction Hc as [|x y z (Hx & Hy & Ha) _ IH]; [apply rtc_refl|].
  eapply rtc_l; [|exact IH]. split; [by apply Hiff|]. split; [by apply Hiff|done].
Qed.

Section scan_result.
Context (rows cols : nat) (matrix : Matrix).

Lemma collect_cell_step scanned d rest visited components :
  cells rows cols = scanned ++ d :: rest →
  scan_inv rows cols matrix scanned visited components →
  ∃ st', collect_cell rows cols matrix d.1 d.2 (visited, components) = Some st' ∧
         scan_inv rows cols matrix (scanned ++ [d]) st'.1 st'.2.
Proof.
  intros Hcells Hinv.
  assert (d ∈ cells rows cols) as Hd
    by (rewrite Hcells; apply elem_of_app; right; left).
  unfold collect_cell.
  destruct (mget matrix d.1 d.2 && negb (mget visited d.1 d.2)) eqn:Hcond.
  - apply andb_true_iff in Hcond as [Hm Hv]. apply negb_true_iff in Hv.
    assert (marked rows cols matrix (zcell d)) as Hon by (by apply marked_zcell).
    assert (¬ marked rows cols visited (zcell d)) as Hfresh.
    { intros [_ H]%marked_zcell. congruence. }
    change (Z.of_nat d.1, Z.of_nat d.2) with (zcell d).
    destruct (floodFill_start rows cols matrix visited (zcell d) Hon Hfresh
                (si_dims _ _ _ _ _ _ Hinv)) as (visited' & component & -> & Hflood).
    destruct (scan_inv_found rows cols matrix scanned d rest visited components
                visited' component Hcells Hon Hfresh Hinv Hflood) as [Hhead Hinv'].
    cbn [mbind option_bind].
    rewrite decide_True by (destruct component; [done|simpl; lia]).
    by eexists.
  - eexists. split; [done|]. by apply scan_inv_pass.
Qed.

Lemma findComponents_scan :
  ∃ visited components,
    findComponents rows cols matrix = Some components ∧
    scan_inv rows cols matrix (cells rows cols) visited components.
Proof.
  unfold findComponents.
  rewrite (for_each_cells (fun r c st => collect_cell rows cols matrix r c st)).
  destruct (for_each_invariant
              (fun p st => collect_cell rows cols matrix p.1 p.2 st)
              (fun scanned st => scan_inv rows cols matrix scanned st.1 st.2)
              (cells rows cols)) with (rest := cells rows cols) (visited := @nil (nat * nat))
              (s := (new_matrix rows cols, @nil (list Cell)))
    as ([visited components] & -> & Hinv).
  - intros scanned d rest [visited components] Hcells Hinv.
    by apply (collect_cell_step scanned d rest).
  - done.
  - apply scan_inv_start.
  - by exists visited, components.
Qed.

(** What the scan has found when it ends. *)
Lemma scan_inv_found_components on visited components :
  (∀ p, marked rows cols matrix p ↔ on p) →
  scan_inv rows cols matrix (cells rows cols) visited components →
  found_components on components.
Proof.
  intros Hon [Hdims Hvis Hnd Hmarked Hscanned Hcomps Horder].
  assert (∀ q, q ∈ concat components ↔ on q) as Hcover.
  { intros q. split; [intros Hq; by apply Hon, Hmarked|].
    intros Hq%Hon. apply Hvis.
    destruct (proj1 (in_bounds_zcell rows cols q)) as (d & Hd & ->);
      [apply Hq|]. by apply Hscanned. }
  split; try done.
  - rewrite Forall_forall in Hcomps. apply Forall_forall. intros c Hc.
    destruct (Hcomps c Hc) as (start & Hhead & _ & Hconn & Hclosed & _).
    split; [by destruct c|]. split; [by eapply NoDup_concat_elem|].
    split; [intros p Hp; apply Hcover, elem_of_concat; by exists c|].
    intros p Hp q. split.
    + intros Hq. apply (connected_iff (marked rows cols matrix)); [done|].
      eapply (rtc_trans _ start); [apply connected_sym, Hconn, Hp|by apply Hconn].
    + intros Hpq.
      apply (connected_closed (marked rows cols matrix) (.∈ c) p q Hclosed Hp).
      apply (connected_iff on); [|done]. intros x. by rewrite Hon.
  - eapply Forall_impl; [exact Hcomps|].
    intros c (start & Hhead & _ & _ & _ & Hmin). by exists start.
Qed.
End scan_result.

(** ** The rectangles *)

Lemma foldl_min_least x xs : least (foldl Z.min x xs) (x :: xs).
Proof.
  revert x. induction xs as [|y ys IH]; intros x; simpl.
  - split; [left|]. intros z Hz. apply list_elem_of_singleton in Hz as ->. lia.
  - destruct (IH (Z.min x y)) as [Hin Hle]. split.
    + apply elem_of_cons in Hin as [Hin|Hin]; [|right; by right].
      rewrite Hin. destruct (Z.min_spec x y) as [[_ ->]|[_ ->]]; [left|right; left].
    + intros z Hz. assert (foldl Z.min (Z.min x y) ys ≤ Z.min x y) by (apply Hle; left).
      apply elem_of_cons in Hz as [->|Hz]; [lia|].
      apply elem_of_cons in Hz as [->|Hz]; [lia|]. apply Hle. by right.
Qed.

Lemma foldl_max_greatest x xs : greatest (foldl Z.max x xs) (x :: xs).
Proof.
  revert x. induction xs as [|y ys IH]; intros x; simpl.
  - split; [left|]. intros z Hz. apply list_elem_of_singleton in Hz as ->. lia.
  - destruct (IH (Z.max x y)) as [Hin Hle]. split.
    + apply elem_of_cons in Hin as [Hin|Hin]; [|right; by right].
      rewrite Hin. destruct (Z.max_spec x y) as [[_ ->]|[_ ->]]; [right; left|left].
    + intros z Hz. assert (Z.max x y ≤ foldl Z.max (Z.max x y) ys) by (apply Hle; left).
      apply elem_of_cons in Hz as [->|Hz]; [lia|].
      apply elem_of_cons in Hz as [->|Hz]; [lia|]. apply Hle. by right.
Qed.

Lemma Math_min_least l m : Math_min l = Some m → least m l.
Proof. destruct l as [|x xs]; [done|]. intros [= <-]. apply foldl_min_least. Qed.

Lemma Math_max_greatest l m : Math_max l = Some m → greatest m l.
Proof. destruct l as [|x xs]; [done|]. intros [= <-]. apply foldl_max_greatest. Qed.

Lemma least_unique m m' l : least m l → least m' l → m = m'.
Proof. intros [Hin Hle] [Hin' Hle']. specialize (Hle _ Hin'). specialize (Hle' _ Hin). lia. Qed.

Lemma greatest_unique m m' l : greatest m l → greatest m' l → m = m'.
Proof. intros [Hin Hle] [Hin' Hle']. specialize (Hle _ Hin'). specialize (Hle' _ Hin). lia. Qed.

Section rectangles.
Context (cellSize roundedCorners : Z).

Lemma bbox_rect_bounding component :
  bbox_rect cellSize roundedCorners component
  = rect_markup <$> bounding_rect cellSize roundedCorners component.
Proof.
  unfold bbox_rect, bounding_rect.
  destruct (Math_min (component.*1)), (Math_max (component.*1)),
    (Math_min (component.*2)), (Math_max (component.*2)); done.
Qed.

(** The branch for a component of one cell writes the rectangle of
    the general branch. *)
Lemma component_rect_bbox component :
  component_rect cellSize roundedCorners component
  = bbox_rect cellSize roundedCorners component.
Proof.
  destruct component as [|[r c] [|q component]]; [done| |done].
  unfold component_rect, bbox_rect. simpl.
  replace (c - c + 1) with 1 by lia. replace (r - r + 1) with 1 by lia.
  by rewrite !Z.mul_1_l.
Qed.

Lemma bounding_rect_covers component q :
  bounding_rect cellSize roundedCorners component = Some q →
  covers_bounding_box cellSize roundedCorners component q.
Proof.
  unfold bounding_rect, covers_bounding_box. intros H.
  destruct (Math_min (component.*1)) as [minR|] eqn:H1; [|done].
  destruct (Math_max (component.*1)) as [maxR|] eqn:H2; [|done].
  destruct (Math_min (component.*2)) as [minC|] eqn:H3; [|done].
  destruct (Math_max (component.*2)) as [maxC|] eqn:H4; [|done].
  simpl in H. injection H as <-.
  exists minR, maxR, minC, maxC.
  split; [by apply Math_min_least|]. split; [by apply Math_max_greatest|].
  split; [by apply Math_min_least|]. split; [by apply Math_max_greatest|done].
Qed.

Lemma covers_bounding_box_unique component q q' :
  covers_bounding_box cellSize roundedCorners component q →
  covers_bounding_box cellSize roundedCorners component q' → q = q'.
Proof.
  intros (a & b & c & d & Ha & Hb & Hc & Hd & ->)
         (a' & b' & c' & d' & Ha' & Hb' & Hc' & Hd' & ->).
  rewrite (least_unique _ _ _ Ha Ha'), (greatest_unique _ _ _ Hb Hb'),
    (least_unique _ _ _ Hc Hc'), (greatest_unique _ _ _ Hd Hd'). done.
Qed.

Lemma bounding_rect_is_Some component :
  component ≠ [] → is_Some (bounding_rect cellSize roundedCorners component).
Proof. destruct component as [|p component]; [done|]. intros _. by eexists. Qed.

Lemma concat_strings_snoc (l : list string) (s : string) :
  concat_strings (l ++ [s]) = concat_strings l +:+ s.
Proof.
  induction l as [|a l IH]; simpl; [apply string_app_nil_r|].
  by rewrite IH, string_app_assoc.
Qed.

(** [components.forEach] of the second version. *)
Lemma forEach_rects components rects paths :
  Forall2 (fun c q => bounding_rect cellSize roundedCorners c = Some q)
    components rects →
  for_each (fun component paths =>
    rect ← component_rect cellSize roundedCorners component;
    Some (paths +:+ rect)) components paths
  = Some (paths +:+ concat_strings (rect_markup <$> rects)).
Proof.
  intros H. revert paths.
  induction H as [|c q components rects Hc _ IH]; intros paths; simpl.
  - by rewrite string_app_nil_r.
  - rewrite component_rect_bbox, bbox_rect_bounding, Hc. simpl.
    by rewrite IH, string_app_assoc.
Qed.
End rectangles.

(** ** The two versions of the exporter *)

Lemma for_each_related {A S1 S2 : Type} (R : S1 → S2 → Prop)
    (f : A → S1 → option S1) (g : A → S2 → option S2) (l : list A) :
  (∀ x s1 s2, R s1 s2 → option_Forall2 R (f x s1) (g x s2)) →
  ∀ s1 s2, R s1 s2 → option_Forall2 R (for_each f l s1) (for_each g l s2).
Proof.
  intros Hstep. induction l as [|x l IH]; intros s1 s2 HR; simpl.
  - by constructor.
  - destruct (Hstep x s1 s2 HR) as [t1 t2 Ht|]; simpl; [by apply IH|constructor].
Qed.

Section versions.
Context (rows cols : nat) (cellSize roundedCorners : Z) (matrix : Matrix).

Lemma scan_cell_collect_cell r c s1 s2 :
  written cellSize roundedCorners s1 s2 →
  option_Forall2 (written cellSize roundedCorners)
    (scan_cell rows cols cellSize roundedCorners matrix r c s1)
    (collect_cell rows cols matrix r c s2).
Proof.
  destruct s1 as [visited path], s2 as [visited2 components].
  intros [Hv (rects & Hrects & Hpath)]. simpl in Hv, Hrects, Hpath. subst.
  unfold scan_cell, collect_cell.
  destruct (mget matrix r c && negb (mget visited2 r c)).
  - destruct (floodFill _ _ _ _ _ _ _) as [[visited' component]|];
      [|constructor].
    cbn [mbind option_bind]. case_decide as Hlen.
    + destruct (bounding_rect_is_Some cellSize roundedCorners component)
        as [q Hq]; [by destruct component; [simpl in Hlen; lia|]|].
      rewrite bbox_rect_bounding, Hq. simpl. constructor.
      split; [done|]. exists (rects ++ [q]). split.
      * apply Forall2_app; [done|]. by constructor.
      * cbn [snd]. rewrite fmap_app.
        change (rect_markup <$> [q]) with [rect_markup q].
        by rewrite concat_strings_snoc.
    + constructor. split; [done|]. by exists rects.
  - constructor. split; [done|]. by exists rects.
Qed.

Lemma scan_collect :
  option_Forall2 (written cellSize roundedCorners)
    (for_each (fun r st =>
       for_each (fun c st =>
         scan_cell rows cols cellSize roundedCorners matrix r c st)
         (seq 0 cols) st)
       (seq 0 rows) (new_matrix rows cols, EmptyString))
    (for_each (fun r st =>
       for_each (fun c st => collect_cell rows cols matrix r c st)
         (seq 0 cols) st)
       (seq 0 rows) (new_matrix rows cols, [])).
Proof.
  rewrite (for_each_cells
    (fun r c st => scan_cell rows cols cellSize roundedCorners matrix r c st)).
  rewrite (for_each_cells (fun r c st => collect_cell rows cols matrix r c st)).
  apply for_each_related.
  - intros p s1 s2. apply scan_cell_collect_cell.
  - split; [done|]. exists []. split; [constructor|done].
Qed.
End versions.

(** The second version returns what the first returns, on every input. *)
Lemma generateSVG_2_eq (grid : Grid) (cols rows : nat) (roundedCorners cellSize : Z) :
  generateSVG_2 grid cols rows roundedCorners cellSize
  = generateSVG grid cols rows roundedCorners cellSize.
Proof.
  unfold generateSVG_2, generateSVG, findComponents.
  destruct (0 <? roundedCorners); [|done].
  destruct (scan_collect rows cols cellSize roundedCorners
              (build_matrix grid rows cols))
    as [[visited path] [visited2 components] [_ (rects & Hrects & Hpath)]|];
    [|done].
  simpl in Hrects, Hpath. cbn [mbind option_bind].
  rewrite (forEach_rects cellSize roundedCorners components rects) by done.
  cbn [mbind option_bind]. by rewrite Hpath.
Qed.

(** The rounded branch: the components are those of the filled cells,
    and the document holds the rectangle over the bounding box of each,
    in the order of the components. *)
Lemma generateSVG_rounded (grid : Grid) (cols rows : nat)
    (roundedCorners cellSize : Z) :
  0 < roundedCorners →
  ∃ components rects,
    findComponents rows cols (build_matrix grid rows cols) = Some components ∧
    found_components (filled grid rows cols) components ∧
    Forall2 (covers_bounding_box cellSize roundedCorners) components rects ∧
    generateSVG grid cols rows roundedCorners cellSize
      = Some (document_markup cols rows cellSize rects).
Proof.
  intros Hr.
  destruct (findComponents_scan rows cols (build_matrix grid rows cols))
    as (visited & components & Hfind & Hinv).
  pose proof (scan_inv_found_components rows cols _ (filled grid rows cols)
                visited components (marked_build_matrix rows cols grid) Hinv)
    as Hfound.
  pose proof (generateSVG_2_eq grid cols rows roundedCorners cellSize) as Heq.
  unfold generateSVG_2 in Heq. rewrite (proj2 (Z.ltb_lt _ _) Hr), Hfind in Heq.
  cbn [mbind option_bind] in Heq.
  assert (∃ rects,
    Forall2 (fun c q => bounding_rect cellSize roundedCorners c = Some q)
      components rects) as [rects Hrects].
  { pose proof (fc_components _ _ Hfound) as Hcomps. clear -Hcomps.
    induction Hcomps as [|c components [Hne _] _ [rects IH]]; [by exists []|].
    destruct (bounding_rect_is_Some cellSize roundedCorners c Hne) as [q Hq].
    exists (q :: rects). by constructor. }
  rewrite (forEach_rects cellSize roundedCorners components rects) in Heq by done.
  exists components, rects. split; [done|]. split; [done|]. split.
  - eapply Forall2_impl; [exact Hrects|]. intros c q. apply bounding_rect_covers.
  - by rewrite <- Heq.
Qed.

(** The flat branch: one plain rectangle per filled cell, in row-major
    order. *)
Lemma cell_rects_filter (grid : Grid) (cols rows : nat) (cellSize : Z) :
  cell_rects grid cols rows cellSize
  = concat_strings
      (rect_markup <$>
        (cell_rect cellSize <$>
          filter (fun p => truthy (grid_cell grid p.1 p.2) = true) (cells rows cols))).
Proof.
  unfold cell_rects.
  rewrite (for_loop_cells (fun r c rects =>
    if truthy (grid_cell grid r c)
    then rects +:+ rect_plain (Z.of_nat c * cellSize) (Z.of_nat r * cellSize)
                     cellSize cellSize
    else rects)).
  enough (∀ l acc,
    for_loop (fun p rects =>
      if truthy (grid_cell grid p.1 p.2)
      then rects +:+ rect_plain (Z.of_nat p.2 * cellSize) (Z.of_nat p.1 * cellSize)
                       cellSize cellSize
      else rects) l acc
    = acc +:+ concat_strings
        (rect_markup <$>
          (cell_rect cellSize <$>
            filter (fun p => truthy (grid_cell grid p.1 p.2) = true) l))) as H
    by apply H.
  induction l as [|p l IH]; intros acc; simpl.
  - by rewrite string_app_nil_r.
  - rewrite IH, filter_cons. destruct (truthy (grid_cell grid p.1 p.2)) eqn:Ht.
    + rewrite decide_True by done. simpl. by rewrite <- string_app_assoc.
    + by rewrite decide_False by done.
Qed.

(** ** The exporter: the properties of the specification *)

Lemma truthy_true v : truthy v = true ↔ v = JBool true.
Proof. destruct v as [[]| |]; naive_solver. Qed.

Lemma grid_cell_unset_as_empty (grid : Grid) r c :
  truthy (grid_cell (unset_as_empty grid) r c) = truthy (grid_cell grid r c).
Proof.
  unfold grid_cell, unset_as_empty. rewrite list_lookup_fmap.
  destruct (grid !! r) as [row|]; [|done]. simpl. rewrite list_lookup_fmap.
  by destruct (row !! c) as [[[]| |]|].
Qed.

Lemma build_matrix_unset_as_empty (grid : Grid) rows cols :
  build_matrix (unset_as_empty grid) rows cols = build_matrix grid rows cols.
Proof.
  unfold build_matrix. apply for_loop_ext. intros r m _.
  apply for_loop_ext. intros c m' _. by rewrite grid_cell_unset_as_empty.
Qed.

Lemma cell_rects_unset_as_empty (grid : Grid) cols rows cellSize :
  cell_rects (unset_as_empty grid) cols rows cellSize
  = cell_rects grid cols rows cellSize.
Proof.
  unfold cell_rects. apply for_loop_ext. intros r m _.
  apply for_loop_ext. intros c m' _. by rewrite grid_cell_unset_as_empty.
Qed.

Lemma generateSVG_unset_as_empty (grid : Grid) cols rows roundedCorners cellSize :
  generateSVG (unset_as_empty grid) cols rows roundedCorners cellSize
  = generateSVG grid cols rows roundedCorners cellSize.
Proof.
  unfold generateSVG.
  by rewrite build_matrix_unset_as_empty, cell_rects_unset_as_empty.
Qed.

Lemma generateSVG_flat (grid : Grid) cols rows roundedCorners cellSize :
  roundedCorners ≤ 0 →
  generateSVG grid cols rows roundedCorners cellSize
  = Some (document_markup cols rows cellSize
      (cell_rect cellSize <$>
        filter (fun p => truthy (grid_cell grid p.1 p.2) = true) (cells rows cols))).
Proof.
  intros Hr. unfold generateSVG. rewrite (proj2 (Z.ltb_ge _ _) Hr).
  by rewrite cell_rects_filter.
Qed.

Lemma covers_bounding_box_radius cellSize roundedCorners components rects :
  Forall2 (covers_bounding_box cellSize roundedCorners) components rects →
  Forall (fun q => rect_radius q = Some roundedCorners) rects.
Proof.
  induction 1 as [|c q components rects (?&?&?&?&_&_&_&_&->) _ IH];
    constructor; done.
Qed.

(** C10. The two versions of [generateSVG] return the same document
    for every grid, size, corner radius and cell size, and they do
    return one. *)
Theorem generateSVG_versions_agree (grid : Grid) (cols rows : nat)
    (roundedCorners cellSize : Z) :
  ∃ svg, generateSVG grid cols rows roundedCorners cellSize = Some svg ∧
         generateSVG_2 grid cols rows roundedCorners cellSize = Some svg.
Proof.
  rewrite generateSVG_2_eq.
  destruct (decide (0 < roundedCorners)) as [Hr|Hr].
  - destruct (generateSVG_rounded grid cols rows roundedCorners cellSize Hr)
      as (components & rects & _ & _ & _ & ->). by eexists.
  - rewrite generateSVG_flat by lia. by eexists.
Qed.

(** C5. With a corner radius of 0 the document holds one rectangle of
    [cellSize] by [cellSize] at [(col * cellSize, row * cellSize)] for
    every filled cell, in row-major order, and nothing else; and in
    every document the rectangles have a radius, the same for [rx] and
    [ry], exactly when the corner radius is positive. *)
Theorem flat_export_one_rectangle_per_filled_cell (grid : Grid) (cols rows : nat)
    (roundedCorners cellSize : Z) :
  generateSVG grid cols rows 0 cellSize
    = Some (document_markup cols rows cellSize
        ((fun p => {| rect_x := Z.of_nat p.2 * cellSize;
                      rect_y := Z.of_nat p.1 * cellSize;
                      rect_width := cellSize; rect_height := cellSize;
                      rect_radius := None |}) <$>
          filter (fun p => truthy (grid_cell grid p.1 p.2) = true)
            (cells rows cols))) ∧
  ∃ rects,
    generateSVG grid cols rows roundedCorners cellSize
      = Some (document_markup cols rows cellSize rects) ∧
    Forall (fun q =>
      rect_radius q = if decide (0 < roundedCorners) then Some roundedCorners
                      else None) rects.
Proof.
  split; [by apply generateSVG_flat|].
  destruct (decide (0 < roundedCorners)) as [Hr|Hr].
  - destruct (generateSVG_rounded grid cols rows roundedCorners cellSize Hr)
      as (components & rects & _ & _ & Hcovers & ->).
    exists rects. split; [done|]. by eapply covers_bounding_box_radius.
  - eexists. split; [apply generateSVG_flat; lia|].
    apply Forall_fmap, Forall_forall. done.
Qed.

(** C8. A grid with unset cells is exported as the same grid with every
    unset cell made empty; and the rectangles come from cells that hold
    [true] only: in the flat branch one per such cell, in the rounded
    branch one per component, and a component has such cells only. *)
Theorem unset_cells_exported_as_empty (grid : Grid) (cols rows : nat)
    (roundedCorners cellSize : Z) :
  generateSVG (unset_as_empty grid) cols rows roundedCorners cellSize
    = generateSVG grid cols rows roundedCorners cellSize ∧
  ∃ rects,
    generateSVG grid cols rows roundedCorners cellSize
      = Some (document_markup cols rows cellSize rects) ∧
    (roundedCorners ≤ 0 →
       rects = cell_rect cellSize <$>
                 filter (fun p => grid_cell grid p.1 p.2 = JBool true)
                   (cells rows cols)) ∧
    (0 < roundedCorners →
       ∃ components,
         Forall2 (covers_bounding_box cellSize roundedCorners) components rects ∧
         ∀ q, q ∈ concat components →
           grid_cell grid (Z.to_nat q.1) (Z.to_nat q.2) = JBool true).
Proof.
  split; [apply generateSVG_unset_as_empty|].
  destruct (decide (0 < roundedCorners)) as [Hr|Hr].
  - destruct (generateSVG_rounded grid cols rows roundedCorners cellSize Hr)
      as (components & rects & _ & Hfound & Hcovers & ->).
    exists rects. split; [done|]. split; [lia|]. intros _.
    exists components. split; [done|]. intros q Hq.
    apply (fc_cover _ _ Hfound) in Hq as [_ Hq]. by apply truthy_true.
  - eexists. split; [apply generateSVG_flat; lia|]. split; [|lia]. intros _.
    f_equal. apply list_filter_iff. intros p. apply truthy_true.
Qed.

Lemma NoDup_concat_index {A : Type} (ls : list (list A)) : ∀ i j l l' x,
  NoDup (concat ls) → ls !! i = Some l → ls !! j = Some l' →
  x ∈ l → x ∈ l' → i = j.
Proof.
  induction ls as [|a ls IH]; intros i j l l' x Hnd Hi Hj Hx Hx'; [done|].
  simpl in Hnd. apply NoDup_app in Hnd as (_ & Hdisj & Hnd).
  destruct i as [|i], j as [|j]; simpl in Hi, Hj; simplify_eq.
  - done.
  - destruct (Hdisj x Hx). apply elem_of_concat. exists l'.
    split; [done|by eapply list_elem_of_lookup_2].
  - destruct (Hdisj x Hx'). apply elem_of_concat. exists l.
    split; [done|by eapply list_elem_of_lookup_2].
  - f_equal. by eapply IH.
Qed.

(** Every filled cell is in exactly one of the listed components. *)
Lemma found_components_unique on components (q : Cell) :
  found_components on components → on q →
  ∃ i c, components !! i = Some c ∧ q ∈ c ∧
    ∀ j c', components !! j = Some c' → q ∈ c' → j = i.
Proof.
  intros [Hnd Hcover _ _ _] Hq.
  apply Hcover, elem_of_concat in Hq as (c & Hqc & Hc).
  apply list_elem_of_lookup in Hc as [i Hi].
  exists i, c. split; [done|]. split; [done|].
  intros j c' Hj Hqc'. by eapply (NoDup_concat_index components j i).
Qed.

(** C6. With a positive corner radius the components that the flood
    fill finds partition the filled cells: their cells are the filled
    cells, no cell is listed twice, and every filled cell is in exactly
    one component; the document holds one rectangle per component. *)
Theorem components_partition_filled_cells (grid : Grid) (cols rows : nat)
    (roundedCorners cellSize : Z) :
  0 < roundedCorners →
  ∃ components rects,
    findComponents rows cols (build_matrix grid rows cols) = Some components ∧
    generateSVG grid cols rows roundedCorners cellSize
      = Some (document_markup cols rows cellSize rects) ∧
    Forall2 (covers_bounding_box cellSize roundedCorners) components rects ∧
    (∀ q, q ∈ concat components ↔ filled grid rows cols q) ∧
    NoDup (concat components) ∧
    (∀ q, filled grid rows cols q →
       ∃ i c, components !! i = Some c ∧ q ∈ c ∧
         ∀ j c', components !! j = Some c' → q ∈ c' → j = i).
Proof.
  intros Hr.
  destruct (generateSVG_rounded grid cols rows roundedCorners cellSize Hr)
    as (components & rects & Hfind & Hfound & Hcovers & Hsvg).
  exists components, rects. split; [done|]. split; [done|]. split; [done|].
  split; [apply (fc_cover _ _ Hfound)|]. split; [apply (fc_nodup _ _ Hfound)|].
  intros q Hq. by apply (found_components_unique (filled grid rows cols)).
Qed.

(** The first cells of the listed components are the top-left-most
    cells of the 4-connected components, and no others. *)
Lemma found_components_heads on components (p : Cell) :
  found_components on components →
  (∃ c, c ∈ components ∧ head c = Some p) ↔ top_left_of_component on p.
Proof.
  intros [_ Hcover Hcomps Htl _]. rewrite Forall_forall in Hcomps, Htl. split.
  - intros (c & Hc & Hhead).
    destruct (Hcomps c Hc) as (_ & _ & Hon & Hclass).
    destruct (Htl c Hc) as (start & Hstart & Hmin).
    assert (start = p) as -> by congruence.
    assert (p ∈ c) as Hp by (destruct c as [|a c]; [done|]; simplify_eq/=; left).
    split; [by apply Hon|]. intros q Hq. apply Hmin. by apply (Hclass p Hp q).
  - intros [Hp Hleast].
    apply Hcover, elem_of_concat in Hp as (c & Hpc & Hc).
    exists c. split; [done|].
    destruct (Hcomps c Hc) as (_ & _ & _ & Hclass).
    destruct (Htl c Hc) as (start & Hstart & Hmin). rewrite Hstart. f_equal.
    assert (start ∈ c) as Hs by (destruct c as [|a c]; [done|]; simplify_eq/=; left).
    destruct (Hmin p Hpc) as [->|Hlt]; [done|].
    destruct (Hleast start) as [->|Hgt]; [by apply (Hclass p Hpc start)|done|].
    unfold rm_lt in *. lia.
Qed.

(** C7. With a positive corner radius the document holds one rectangle
    for each 4-connected component of the filled cells, and the
    rectangles stand in the order in which the row-major scan meets the
    components: the components that the flood fill collects hold
    exactly the filled cells, each is a 4-connected component, the
    first cell of a component is its top-left-most cell (its first cell
    in row-major order), these first cells are exactly the top-left-most
    cells of the components of the grid, and the components are listed
    by increasing first cell. The order is thus fixed by the grid. *)
Theorem rectangles_in_scan_order (grid : Grid) (cols rows : nat)
    (roundedCorners cellSize : Z) :
  0 < roundedCorners →
  ∃ components rects,
    findComponents rows cols (build_matrix grid rows cols) = Some components ∧
    generateSVG grid cols rows roundedCorners cellSize
      = Some (document_markup cols rows cellSize rects) ∧
    Forall2 (covers_bounding_box cellSize roundedCorners) components rects ∧
    (∀ q, q ∈ concat components ↔ filled grid rows cols q) ∧
    Forall (is_component (filled grid rows cols)) components ∧
    Forall (fun component =>
      ∃ start, head component = Some start ∧ filled grid rows cols start ∧
        ∀ q, q ∈ component → q = start ∨ rm_lt start q) components ∧
    (∀ p, (∃ c, c ∈ components ∧ head c = Some p)
          ↔ top_left_of_component (filled grid rows cols) p) ∧
    StronglySorted
      (fun c1 c2 => ∃ p1 p2, head c1 = Some p1 ∧ head c2 = Some p2 ∧ rm_lt p1 p2)
      components.
Proof.
  intros Hr.
  destruct (generateSVG_rounded grid cols rows roundedCorners cellSize Hr)
    as (components & rects & Hfind & Hfound & Hcovers & Hsvg).
  exists components, rects. split; [done|]. split; [done|]. split; [done|].
  split; [apply (fc_cover _ _ Hfound)|].
  split; [apply (fc_components _ _ Hfound)|].
  split; [|split; [|apply (fc_order _ _ Hfound)]].
  - pose proof (fc_top_left _ _ Hfound) as Htl.
    apply Forall_forall. intros c Hc. rewrite Forall_forall in Htl.
    destruct (Htl c Hc) as (start & Hhead & Hmin).
    exists start. split; [done|]. split; [|done].
    apply (fc_cover _ _ Hfound), elem_of_concat. exists c. split; [|done].
    destruct c as [|a c]; [done|]. injection Hhead as ->. left.
  - intros p. by apply found_components_heads.
Qed.

Lemma covers_bounding_box_equiv cellSize roundedCorners (c S : list Cell) q :
  (∀ x, x ∈ c ↔ x ∈ S) →
  covers_bounding_box cellSize roundedCorners c q →
  covers_bounding_box cellSize roundedCorners S q.
Proof.
  intros Heq (minR & maxR & minC & maxC & H1 & H2 & H3 & H4 & ->).
  assert (∀ (f : Cell → Z) z, z ∈ f <$> c ↔ z ∈ f <$> S) as Hf.
  { intros f z. rewrite !list_elem_of_fmap. by setoid_rewrite Heq. }
  exists minR, maxR, minC, maxC. unfold least, greatest in *.
  repeat split; try done; try (by apply Hf; tauto);
    try (by intros x Hx%Hf; naive_solver).
Qed.

(** The listed components are all the components: a 4-connected
    component of [on] has the cells of exactly one listed component. *)
Lemma found_components_enumerate on components (S : list Cell) :
  found_components on components → is_component on S →
  ∃ i c, components !! i = Some c ∧ (∀ x, x ∈ c ↔ x ∈ S) ∧
    ∀ j c', components !! j = Some c' → (∀ x, x ∈ c' ↔ x ∈ S) → j = i.
Proof.
  intros Hfound (Hne & _ & Hon & Hclass).
  destruct S as [|p S]; [done|].
  assert (p ∈ p :: S) as Hp by left.
  destruct (found_components_unique on components p Hfound (Hon p Hp))
    as (i & c & Hi & Hpc & Huniq).
  exists i, c. split; [done|]. split.
  - pose proof (fc_components _ _ Hfound) as Hcomps.
    rewrite Forall_forall in Hcomps.
    destruct (Hcomps c) as (_ & _ & _ & Hc); [by eapply list_elem_of_lookup_2|].
    intros x. by rewrite (Hc p Hpc x), (Hclass p Hp x).
  - intros j c' Hj Hc'. apply (Huniq j c' Hj). by apply Hc'.
Qed.

Lemma block_is_component (on : Cell → Prop) :
  (∀ p, on p ↔ p ∈ [(0, 0); (0, 1); (1, 0); (1, 1)]) →
  is_component on [(0, 0); (0, 1); (1, 0); (1, 1)].
Proof.
  intros Hon.
  assert (∀ p q : Cell, p ∈ [(0, 0); (0, 1); (1, 0); (1, 1)] →
            q ∈ [(0, 0); (0, 1); (1, 0); (1, 1)] → adjacent p q →
            link on p q) as Hlink
    by (intros p q Hp Hq Ha; split; [by apply Hon|split; [by apply Hon|done]]).
  assert (∀ x : Cell, x ∈ [(0, 0); (0, 1); (1, 0); (1, 1)] →
            connected on (0, 0) x) as Hfrom.
  { intros x Hx.
    repeat (apply elem_of_cons in Hx as [->|Hx]); [..|by apply elem_of_nil in Hx].
    - apply rtc_refl.
    - apply rtc_once, Hlink; [set_solver..|]. unfold adjacent. simpl. lia.
    - apply rtc_once, Hlink; [set_solver..|]. unfold adjacent. simpl. lia.
    - apply (rtc_l _ _ (1, 0)); [|apply rtc_once];
        (apply Hlink; [set_solver..|]; unfold adjacent; simpl; lia). }
  split; [done|]. split.
  { apply (bool_decide_unpack _). by vm_compute. }
  split; [intros p Hp; by apply Hon|].
  intros p Hp q. split.
  - intros Hq. eapply (rtc_trans _ (0, 0)); [apply connected_sym|]; by apply Hfrom.
  - intros Hc. apply Hon. eapply (connected_on on p q); [by apply Hon|done].
Qed.

(** C3. With a positive corner radius the document holds exactly one
    rectangle for every 4-connected component of filled cells: the
    listed components are 4-connected components, every 4-connected
    component is listed at exactly one position, and the rectangle at
    that position spans the bounding box of the component, scaled by
    [cellSize], with the corner radius on it. When the filled cells are
    the 2 by 2 block at the origin the document is the one rectangle at
    (0, 0) of twice [cellSize] by twice [cellSize]. *)
Theorem one_rectangle_per_component (grid : Grid) (cols rows : nat)
    (roundedCorners cellSize : Z) :
  0 < roundedCorners →
  ∃ components rects,
    generateSVG grid cols rows roundedCorners cellSize
      = Some (document_markup cols rows cellSize rects) ∧
    Forall (is_component (filled grid rows cols)) components ∧
    Forall2 (covers_bounding_box cellSize roundedCorners) components rects ∧
    (∀ S, is_component (filled grid rows cols) S →
       ∃ i c q,
         components !! i = Some c ∧ rects !! i = Some q ∧
         (∀ x, x ∈ c ↔ x ∈ S) ∧
         covers_bounding_box cellSize roundedCorners S q ∧
         ∀ j c', components !! j = Some c' → (∀ x, x ∈ c' ↔ x ∈ S) → j = i) ∧
    ((∀ p, filled grid rows cols p ↔ p ∈ [(0, 0); (0, 1); (1, 0); (1, 1)]) →
       rects = [ {| rect_x := 0; rect_y := 0;
                    rect_width := 2 * cellSize; rect_height := 2 * cellSize;
                    rect_radius := Some roundedCorners |} ]).
Proof.
  intros Hr.
  destruct (generateSVG_rounded grid cols rows roundedCorners cellSize Hr)
    as (components & rects & Hfind & Hfound & Hcovers & Hsvg).
  assert (∀ S, is_component (filled grid rows cols) S →
    ∃ i c q,
      components !! i = Some c ∧ rects !! i = Some q ∧
      (∀ x, x ∈ c ↔ x ∈ S) ∧
      covers_bounding_box cellSize roundedCorners S q ∧
      ∀ j c', components !! j = Some c' → (∀ x, x ∈ c' ↔ x ∈ S) → j = i)
    as Henum.
  { intros S HS.
    destruct (found_components_enumerate _ _ S Hfound HS)
      as (i & c & Hi & Heq & Huniq).
    destruct (Forall2_lookup_l _ _ _ _ _ Hcovers Hi) as (q & Hq & Hcq).
    exists i, c, q. repeat split; try done; try (by apply Heq).
    by eapply covers_bounding_box_equiv. }
  exists components, rects. split; [done|].
  split; [apply (fc_components _ _ Hfound)|]. split; [done|]. split; [done|].
  intros Hblock.
  pose proof (block_is_component _ Hblock) as HB.
  destruct (Henum _ HB) as (i & c & q & Hi & Hq & Heq & Hcq & Huniq).
  assert (∀ j c', components !! j = Some c' → j = i) as Hall.
  { intros j c' Hj. apply (Huniq j c' Hj).
    pose proof (fc_components _ _ Hfound) as Hcomps.
    rewrite Forall_forall in Hcomps.
    destruct (Hcomps c') as (Hne & _ & Hon & Hc');
      [by eapply list_elem_of_lookup_2|].
    destruct c' as [|p c']; [done|]. assert (p ∈ p :: c') as Hp by left.
    destruct HB as (_ & _ & _ & HBclass).
    intros x. rewrite (Hc' p Hp x). symmetry. apply HBclass.
    apply Hblock, Hon, Hp. }
  assert (components = [c]) as ->.
  { destruct components as [|c0 [|c1 components]].
    - done.
    - pose proof (Hall 0%nat c0 eq_refl) as <-. simpl in Hi. by injection Hi as ->.
    - pose proof (Hall 0%nat c0 eq_refl). pose proof (Hall 1%nat c1 eq_refl). lia. }
  apply Forall2_cons_inv_l in Hcovers as (q' & rects' & Hq' & Hnil & ->).
  apply Forall2_nil_inv_l in Hnil as ->.
  assert (i = 0%nat) as -> by (by destruct i as [|[|]]).
  simpl in Hq. injection Hq as ->. f_equal.
  apply (covers_bounding_box_unique cellSize roundedCorners _ _ _ Hcq).
  assert (∀ x : Z, x ∈ [0; 0; 1; 1] ↔ x = 0 ∨ x = 1) as Hrows
    by (intros x; rewrite !elem_of_cons, elem_of_nil; lia).
  assert (∀ x : Z, x ∈ [0; 1; 0; 1] ↔ x = 0 ∨ x = 1) as Hcols
    by (intros x; rewrite !elem_of_cons, elem_of_nil; lia).
  exists 0, 1, 0, 1. unfold least, greatest. simpl.
  split; [split; [apply Hrows; lia|intros x Hx%Hrows; lia]|].
  split; [split; [apply Hrows; lia|intros x Hx%Hrows; lia]|].
  split; [split; [apply Hcols; lia|intros x Hx%Hcols; lia]|].
  split; [split; [apply Hcols; lia|intros x Hx%Hcols; lia]|].
  f_equal; lia.
Qed.

(** C3 on a 3 by 3 grid whose filled cells are the 2 by 2 block at the
    origin, with a cell size of 10 and a corner radius of 3. *)
Lemma one_rectangle_per_component_witness :
  0 < 3 ∧
  generateSVG
    [[JBool true; JBool true; JBool false];
     [JBool true; JBool true; JBool false];
     [JNull; JNull; JNull]] 3 3 3 10
  = Some (document_markup 3 3 10
      [ {| rect_x := 0; rect_y := 0; rect_width := 20; rect_height := 20;
           rect_radius := Some 3 |} ]).
Proof.
  split; [lia|].
  destruct (one_rectangle_per_component
              [[JBool true; JBool true; JBool false];
               [JBool true; JBool true; JBool false];
               [JNull; JNull; JNull]] 3 3 3 10 ltac:(lia))
    as (components & rects & Hsvg & _ & _ & _ & Hblock).
  rewrite Hsvg. f_equal. f_equal. apply Hblock.
  intros [r c]. unfold filled, in_bounds. simpl.
  rewrite !elem_of_cons, elem_of_nil. split.
  - intros [[Hr Hc] Ht].
    assert (r = 0 ∨ r = 1 ∨ r = 2) as [->|[->| ->]] by lia;
    assert (c = 0 ∨ c = 1 ∨ c = 2) as [->|[->| ->]] by lia;
      simpl in Ht; try discriminate; tauto.
  - intros [[= -> ->]|[[= -> ->]|[[= -> ->]|[[= -> ->]|[]]]]]; simpl;
      (split; [lia|done]).
Defined.

(** C6 on a grid of two rows with two components. *)
Lemma components_partition_filled_cells_witness :
  0 < 3 ∧
  ∃ components rects,
    findComponents 2 3
      (build_matrix [[JBool true; JNull; JBool true]; [JBool true; JNull; JNull]] 2 3)
      = Some components ∧
    generateSVG [[JBool true; JNull; JBool true]; [JBool true; JNull; JNull]] 3 2 3 10
      = Some (document_markup 3 2 10 rects) ∧
    Forall2 (covers_bounding_box 10 3) components rects ∧
    (∀ q, q ∈ concat components
          ↔ filled [[JBool true; JNull; JBool true]; [JBool true; JNull; JNull]] 2 3 q) ∧
    NoDup (concat components) ∧
    (∀ q, filled [[JBool true; JNull; JBool true]; [JBool true; JNull; JNull]] 2 3 q →
       ∃ i c, components !! i = Some c ∧ q ∈ c ∧
         ∀ j c', components !! j = Some c' → q ∈ c' → j = i).
Proof.
  split; [lia|].
  apply (components_partition_filled_cells
           [[JBool true; JNull; JBool true]; [JBool true; JNull; JNull]] 3 2 3 10).
  lia.
Defined.

(** C7 on a grid of two rows with two components: the column on the
    left, met first at (0,0), and the cell (0,2). *)
Lemma rectangles_in_scan_order_witness :
  0 < 3 ∧
  findComponents 2 3 (build_matrix [[JBool true; JNull; JBool true]; [JBool true; JNull; JNull]] 2 3)
    = Some [[(0, 0); (1, 0)]; [(0, 2)]] ∧
  ∃ rects,
    generateSVG [[JBool true; JNull; JBool true]; [JBool true; JNull; JNull]] 3 2 3 10 = Some (document_markup 3 2 10 rects) ∧
    Forall2 (covers_bounding_box 10 3) [[(0, 0); (1, 0)]; [(0, 2)]] rects ∧
    (∀ q, q ∈ concat [[(0, 0); (1, 0)]; [(0, 2)]] ↔ filled [[JBool true; JNull; JBool true]; [JBool true; JNull; JNull]] 2 3 q) ∧
    Forall (is_component (filled [[JBool true; JNull; JBool true]; [JBool true; JNull; JNull]] 2 3)) [[(0, 0); (1, 0)]; [(0, 2)]] ∧
    (∀ p, (∃ c, c ∈ [[(0, 0); (1, 0)]; [(0, 2)]] ∧ head c = Some p)
          ↔ top_left_of_component (filled [[JBool true; JNull; JBool true]; [JBool true; JNull; JNull]] 2 3) p).
Proof.
  split; [lia|].
  destruct (rectangles_in_scan_order [[JBool true; JNull; JBool true]; [JBool true; JNull; JNull]] 3 2 3 10)
    as (components & rects & Hfind & Hsvg & Hcovers & Hcover & Hcomps & _
        & Hheads & _); [lia|].
  assert (components = [[(0, 0); (1, 0)]; [(0, 2)]]) as ->.
  { vm_compute in Hfind. by injection Hfind as <-. }
  split; [exact Hfind|]. by exists rects.
Defined.

(** ** Further properties: the rule engine *)

Lemma rule_of_table_checked :
  Forall (fun r : Z => rule_of_table (getRuleLookup r) = r) (seqZ 0 256).
Proof. apply (bool_decide_unpack _). by vm_compute. Qed.

(** X1. The rule indices of [0,255] and the tables correspond one to
    one: every table is the table of the index its outputs spell in
    binary, and of no other index of [0,255]. *)
Theorem getRuleLookup_round_trip (t : RuleLookup) :
  0 ≤ rule_of_table t ≤ 255 ∧
  getRuleLookup (rule_of_table t) = t ∧
  ∀ n, 0 ≤ n ≤ 255 → getRuleLookup n = t → n = rule_of_table t.
Proof.
  split; [|split].
  - unfold rule_of_table.
    destruct (k111 t), (k110 t), (k101 t), (k100 t), (k011 t), (k010 t),
      (k001 t), (k000 t); simpl; lia.
  - destruct t as [[] [] [] [] [] [] [] []]; by vm_compute.
  - intros n Hn <-. symmetry.
    pose proof rule_of_table_checked as H. rewrite Forall_forall in H.
    apply H, elem_of_seqZ. lia.
Qed.

Lemma rule_patterns_checked :
  Forall (fun n : Z =>
    Forall (fun l : bool => Forall (fun c : bool => Forall (fun r : bool =>
      lookup_pattern (getRuleLookup n)
        (bit_char (JBool l) +:+ bit_char (JBool c) +:+ bit_char (JBool r))
      = JBool (Z.testbit n (4 * Z.b2z l + 2 * Z.b2z c + Z.b2z r)))
      [false; true]) [false; true]) [false; true])
    (seqZ 0 256).
Proof. apply (bool_decide_unpack _). by vm_compute. Qed.

Lemma elem_of_bools (b : bool) : b ∈ [false; true].
Proof. destruct b; [right; left|left]. Qed.

(** X2. Under the table of a rule index of [0,255] the row step is the
    elementary cellular automaton of that Wolfram code: the new cell
    [i] is bit [4 * left + 2 * center + right] of the index, where a
    neighbour outside the row counts as 0. *)
Theorem applyRule_wolfram_code (ruleNumber : Z) (prevRow : list jsval) (i : nat) :
  0 ≤ ruleNumber ≤ 255 → (i < length prevRow)%nat →
  applyRule prevRow (getRuleLookup ruleNumber) !! i
    = Some (JBool (Z.testbit ruleNumber
        (4 * Z.b2z (truthy (arr_get prevRow (Z.of_nat i - 1)))
         + 2 * Z.b2z (truthy (arr_get prevRow (Z.of_nat i)))
         + Z.b2z (truthy (arr_get prevRow (Z.of_nat i + 1)))))).
Proof.
  intros Hn Hi. destruct (lookup_lt_is_Some_2 prevRow i Hi) as [v Hv].
  unfold applyRule. rewrite list_lookup_imap, Hv. simpl. f_equal.
  rewrite !bit_char_js_or.
  rewrite (bit_char_truthy (arr_get prevRow (Z.of_nat i - 1))),
    (bit_char_truthy (arr_get prevRow (Z.of_nat i))),
    (bit_char_truthy (arr_get prevRow (Z.of_nat i + 1))).
  pose proof rule_patterns_checked as H. rewrite Forall_forall in H.
  specialize (H ruleNumber ltac:(apply elem_of_seqZ; lia)).
  rewrite Forall_forall in H.
  specialize (H _ (elem_of_bools (truthy (arr_get prevRow (Z.of_nat i - 1))))).
  rewrite Forall_forall in H.
  specialize (H _ (elem_of_bools (truthy (arr_get prevRow (Z.of_nat i))))).
  rewrite Forall_forall in H.
  apply (H _ (elem_of_bools (truthy (arr_get prevRow (Z.of_nat i + 1))))).
Qed.

(** X2 at rule 90 on a row of three cells: the middle cell gets bit
    [4 * 1 + 2 * 0 + 1] of 90. *)
Lemma applyRule_wolfram_code_witness :
  0 ≤ 90 ≤ 255 ∧ (1 < length [JBool true; JBool false; JBool true])%nat ∧
  applyRule [JBool true; JBool false; JBool true] (getRuleLookup 90) !! 1%nat
    = Some (JBool (Z.testbit 90 5)).
Proof.
  split; [lia|]. split; [simpl; lia|].
  apply (applyRule_wolfram_code 90 [JBool true; JBool false; JBool true] 1);
    [lia|simpl; lia].
Defined.

Lemma lookup_pattern_boolean table (l c r : jsval) :
  ∃ b, lookup_pattern table (bit_char l +:+ bit_char c +:+ bit_char r) = JBool b.
Proof.
  unfold bit_char. destruct (truthy l), (truthy c), (truthy r); by eexists.
Qed.

(** X3. Whatever the cells of a row hold (booleans, [null],
    [undefined]) and whatever the table, the row step returns a row of
    the same length that holds booleans only: it never looks up a
    pattern the table does not have. *)
Theorem applyRule_cells_boolean (prevRow : list jsval) (table : RuleLookup) :
  length (applyRule prevRow table) = length prevRow ∧
  Forall (fun v => ∃ b, v = JBool b) (applyRule prevRow table).
Proof.
  split; [apply length_applyRule|].
  apply Forall_lookup. intros i v Hv. unfold applyRule in Hv.
  apply list_lookup_imap_Some in Hv as (w & _ & ->).
  apply lookup_pattern_boolean.
Qed.

Lemma applyRule_not_truthy prevRow table :
  Forall (fun v => truthy v = false) prevRow →
  applyRule prevRow table = replicate (length prevRow) (JBool (k000 table)).
Proof.
  intros Hrow. apply (list_eq_same_length _ _ (length prevRow)).
  - apply length_replicate.
  - apply length_applyRule.
  - intros i x y Hi Hx Hy. apply lookup_replicate in Hy as [-> _].
    destruct (lookup_lt_is_Some_2 prevRow i Hi) as [v Hv].
    rewrite (applyRule_lookup _ _ _ _ Hv) in Hx. injection Hx as <-.
    rewrite Forall_lookup in Hrow.
    assert (bit_char v = "0"%string) as -> by (unfold bit_char; by rewrite (Hrow i v Hv)).
    assert (default false (truthy <$> prevRow !! S i) = false) as ->.
    { destruct (prevRow !! S i) as [w|] eqn:Hw; [|done]. simpl. by apply (Hrow (S i)). }
    assert (default false (truthy <$> match i with
                                       | O => None
                                       | S j => prevRow !! j
                                       end) = false) as ->.
    { destruct i as [|j]; [done|].
      destruct (prevRow !! j) as [w|] eqn:Hw; [|done]. simpl. by apply (Hrow j). }
    done.
Qed.

(** X4. A row without a filled cell (empty or unset cells) steps to the
    row that holds the output for 000 everywhere; under a table whose
    output for 000 is [false], a seed without a filled cell generates
    rows of empty cells only. *)
Theorem empty_seed_generation (seedRow : list jsval) (table : RuleLookup)
    (n : nat) :
  Forall (fun v => truthy v = false) seedRow →
  applyRule seedRow table = replicate (length seedRow) (JBool (k000 table)) ∧
  (k000 table = false →
     generate seedRow table (S n)
       = seedRow :: replicate n (replicate (length seedRow) (JBool false))).
Proof.
  intros Hseed. split; [by apply applyRule_not_truthy|].
  intros H000. revert seedRow Hseed. induction n as [|n IH]; intros seedRow Hseed.
  - done.
  - cbn [generate]. f_equal. rewrite applyRule_not_truthy by done. rewrite H000.
    specialize (IH (replicate (length seedRow) (JBool false))).
    rewrite length_replicate in IH. cbn [generate] in IH. rewrite IH; [done|].
    by apply Forall_replicate.
Qed.

(** X4 on a seed of one empty and one unset cell under rule 30. *)
Lemma empty_seed_generation_witness :
  Forall (fun v => truthy v = false) [JBool false; JNull] ∧
  applyRule [JBool false; JNull] (getRuleLookup 30)
    = replicate 2 (JBool (k000 (getRuleLookup 30))) ∧
  generate [JBool false; JNull] (getRuleLookup 30) 3
    = [JBool false; JNull] :: replicate 2 (replicate 2 (JBool false)).
Proof.
  split; [by repeat constructor|].
  destruct (empty_seed_generation [JBool false; JNull] (getRuleLookup 30) 2)
    as [Hstep Hrows]; [by repeat constructor|].
  split; [exact Hstep|exact (Hrows eq_refl)].
Defined.

(** X5. The example of the rule modal, computed cell by cell in its own
    loop, is the grid that the engine generates in 14 rows from the
    seed with the single filled cell 7, for every rule number. *)
Theorem generateExamplePattern_is_generate (ruleNumber : Z) :
  generateExamplePattern ruleNumber
    = generate example_seed (getRuleLookup ruleNumber) 14.
Proof.
  unfold generateExamplePattern. generalize (getRuleLookup ruleNumber).
  intros [[] [] [] [] [] [] [] []]; by vm_compute.
Qed.

Lemma activePatterns_table (binary : string) :
  activePatterns binary
    = filter (fun p =>
        lookup_pattern
          {| k111 := char_is binary 0 "1"%char; k110 := char_is binary 1 "1"%char;
             k101 := char_is binary 2 "1"%char; k100 := char_is binary 3 "1"%char;
             k011 := char_is binary 4 "1"%char; k010 := char_is binary 5 "1"%char;
             k001 := char_is binary 6 "1"%char; k000 := char_is binary 7 "1"%char |}
          p = JBool true) patterns.
Proof.
  cbv [activePatterns patterns imap compose for_loop fst snd].
  generalize (char_is binary 0 "1"%char), (char_is binary 1 "1"%char),
    (char_is binary 2 "1"%char), (char_is binary 3 "1"%char),
    (char_is binary 4 "1"%char), (char_is binary 5 "1"%char),
    (char_is binary 6 "1"%char), (char_is binary 7 "1"%char).
  intros [] [] [] [] [] [] [] []; by vm_compute.
Qed.

(** X6. The description of a popular rule is the one listed with it;
    the description of any other rule number lists, in the order of
    [patterns], exactly the patterns that the rule's table maps to
    [true]. *)
Theorem getRuleDescription_lists_table (ruleNumber : Z) :
  (ruleNumber ∈ popularRules →
     (ruleNumber, getRuleDescription ruleNumber) ∈ popularRuleDescriptions) ∧
  (ruleNumber ∉ popularRules →
     getRuleDescription ruleNumber
       = "This rule activates cells when the neighborhood pattern is: "
         +:+ join ", "
               (filter (fun p =>
                  lookup_pattern (getRuleLookup ruleNumber) p = JBool true)
                  patterns)).
Proof.
  split.
  - intros Hin. unfold popularRules in Hin.
    repeat (apply elem_of_cons in Hin as [->|Hin];
            [apply (bool_decide_unpack _); by vm_compute|]).
    by apply elem_of_nil in Hin.
  - intros Hnot. unfold popularRules in Hnot.
    repeat (apply not_elem_of_cons in Hnot as [? Hnot]).
    unfold getRuleDescription, popularRuleDescriptions. cbn [List.find fst snd].
    repeat (rewrite (proj2 (Z.eqb_neq _ _)) by congruence).
    by rewrite activePatterns_table.
Qed.

(** ** Further properties: generation and the grid resets *)

Lemma animate_generate table seedRow (rest : Grid) n :
  (1 ≤ n)%nat → length rest = (n - 1)%nat →
  animate table (n - 1) 1 (seedRow :: rest) = Some (generate seedRow table n).
Proof.
  intros Hn Hrest.
  pose proof (animate_rows table (n - 1) 1 [] seedRow rest eq_refl ltac:(lia)) as H.
  simpl app in H. rewrite H. rewrite drop_ge by lia. rewrite app_nil_r.
  by destruct n as [|n]; [lia|]; simpl; rewrite Nat.sub_0_r.
Qed.

Lemma length_generate seedRow table n : length (generate seedRow table n) = n.
Proof.
  revert seedRow. induction n as [|n IH]; intros seedRow; [done|].
  simpl. by rewrite IH.
Qed.

Lemma generate_rows seedRow table n k row :
  generate seedRow table n !! k = Some row →
  length row = length seedRow ∧
  ((0 < k)%nat → Forall (fun v => ∃ b, v = JBool b) row).
Proof.
  revert seedRow n. induction k as [|k IH]; intros seedRow n Hrow;
    (destruct n as [|n]; [done|]); simpl in Hrow.
  - injection Hrow as ->. split; [done|lia].
  - destruct (IH _ _ Hrow) as [Hlen Hbool].
    rewrite length_applyRule in Hlen. split; [done|]. intros _.
    destruct k as [|k]; [|apply Hbool; lia].
    destruct n as [|n]; [done|]. simpl in Hrow. injection Hrow as <-.
    apply Forall_lookup. intros i v Hv. unfold applyRule in Hv.
    apply list_lookup_imap_Some in Hv as (w & _ & ->).
    apply lookup_pattern_boolean.
Qed.

(** X7. From a grid of [rows] rows whose row 0 is the seed,
    [generatePattern] returns a grid of [rows] rows that keeps the
    seed, whose other rows have the length of the seed and hold
    booleans only (no cell stays unset); and generating again from the
    result changes nothing. *)
Theorem generatePattern_fills_the_grid (st : State) (seedRow : list jsval)
    (rest : Grid) :
  (1 ≤ rows st)%nat → grid st = seedRow :: rest →
  length rest = (rows st - 1)%nat → isAnimating st = false →
  ∃ st',
    generatePattern st = Some st' ∧
    length (grid st') = rows st ∧
    grid st' !! 0%nat = Some seedRow ∧
    (∀ k row, grid st' !! k = Some row →
       length row = length seedRow ∧
       ((0 < k)%nat → Forall (fun v => ∃ b, v = JBool b) row)) ∧
    generatePattern st' = Some st'.
Proof.
  intros Hrows Hgrid Hrest Hanim.
  exists {| rows := rows st; rule := rule st;
            grid := generate seedRow (getRuleLookup (rule st)) (rows st);
            isAnimating := false; hasGenerated := true |}.
  split; [|split; [|split; [|split]]].
  - unfold generatePattern. by rewrite Hanim, Hgrid, animate_generate.
  - apply length_generate.
  - simpl. by destruct (rows st); [lia|].
  - intros k row. apply generate_rows.
  - unfold generatePattern. cbn [isAnimating rule rows grid].
    destruct (rows st) as [|n] eqn:Hn; [lia|]. cbn [generate].
    rewrite (animate_generate _ seedRow _ (S n)); [done|lia|].
    rewrite length_generate. lia.
Qed.

(** X7 on a grid of three rows under rule 30. *)
Lemma generatePattern_fills_the_grid_witness :
  ∃ st',
    generatePattern
      (mkState 3 30 [[JBool false; JBool true]; [JNull; JNull]; [JNull; JNull]]
         false false) = Some st' ∧
    length (grid st') = 3%nat.
Proof.
  destruct (generatePattern_fills_the_grid
              (mkState 3 30 [[JBool false; JBool true]; [JNull; JNull]; [JNull; JNull]]
                 false false)
              [JBool false; JBool true] [[JNull; JNull]; [JNull; JNull]])
    as (st' & H1 & H2 & _); [simpl; lia|reflexivity|reflexivity|reflexivity|].
  by exists st'.
Defined.

Lemma arr_set_middle {A : Type} (pre post : list A) (v : A) :
  arr_set (pre ++ post) (length pre) v = Some ((pre ++ [v]) ++ drop 1 post).
Proof.
  unfold arr_set. destruct post as [|p post].
  - change (drop 1 (@nil A)) with (@nil A). rewrite !app_nil_r.
    rewrite decide_False by lia. by rewrite decide_True.
  - rewrite decide_True by (rewrite length_app; simpl; lia).
    replace (length pre) with (length pre + 0)%nat at 1 by lia.
    rewrite insert_app_r. simpl. by rewrite <- app_assoc.
Qed.

Lemma unset_rows_from cols k : ∀ (pre post : Grid),
  for_each (fun i g => arr_set g i (replicate cols JNull))
    (seq (length pre) k) (pre ++ post)
  = Some (pre ++ replicate k (replicate cols JNull) ++ drop k post).
Proof.
  induction k as [|k IH]; intros pre post; [done|].
  cbn [seq for_each]. rewrite arr_set_middle. cbn [mbind option_bind].
  replace (S (length pre)) with (length (pre ++ [replicate cols JNull]))
    by (rewrite length_app; simpl; lia).
  rewrite IH. rewrite <- app_assoc. simpl. by rewrite drop_drop.
Qed.

Lemma unset_rows_cons rows cols (seedRow : list jsval) (rest : Grid) :
  unset_rows rows cols (seedRow :: rest)
  = Some (seedRow :: replicate (rows - 1) (replicate cols JNull)
            ++ drop (rows - 1) rest).
Proof. apply (unset_rows_from cols (rows - 1) [seedRow] rest). Qed.

(** X8. [resetImage] keeps the seed row and unsets the [rows - 1] rows
    after it, and generating after it gives the grid that the engine
    generates from the seed: the picture is reproduced. *)
Theorem resetImage_then_generate (cols : nat) (st : State)
    (seedRow : list jsval) (rest : Grid) :
  (1 ≤ rows st)%nat → grid st = seedRow :: rest →
  length rest = (rows st - 1)%nat →
  resetImage cols st
    = Some {| rows := rows st; rule := rule st;
              grid := seedRow :: replicate (rows st - 1) (replicate cols JNull);
              isAnimating := false; hasGenerated := false |} ∧
  resetImage cols st ≫= generatePattern
    = Some {| rows := rows st; rule := rule st;
              grid := generate seedRow (getRuleLookup (rule st)) (rows st);
              isAnimating := false; hasGenerated := true |}.
Proof.
  intros Hrows Hgrid Hrest.
  assert (resetImage cols st
    = Some {| rows := rows st; rule := rule st;
              grid := seedRow :: replicate (rows st - 1) (replicate cols JNull);
              isAnimating := false; hasGenerated := false |}) as Hreset.
  { unfold resetImage. rewrite Hgrid, unset_rows_cons. cbn [mbind option_bind].
    rewrite drop_ge by lia. by rewrite app_nil_r. }
  split; [done|]. rewrite Hreset. cbn [mbind option_bind].
  unfold generatePattern. cbn [isAnimating rule rows grid].
  rewrite animate_generate; [done..|]. by rewrite length_replicate.
Qed.

(** X8 on a generated grid of two rows. *)
Lemma resetImage_then_generate_witness :
  resetImage 2 (mkState 2 30 [[JBool false; JBool true]; [JBool true; JBool true]]
                  false true)
  = Some (mkState 2 30 [[JBool false; JBool true]; [JNull; JNull]] false false).
Proof.
  apply (resetImage_then_generate 2
           (mkState 2 30 [[JBool false; JBool true]; [JBool true; JBool true]]
              false true)
           [JBool false; JBool true] [[JBool true; JBool true]]);
    [simpl; lia|reflexivity|reflexivity].
Defined.

(** X9. [generateRandomSeed] never fails, whatever the grid: row 0
    becomes [cols] fresh booleans, the [rows - 1] rows after it become
    unset rows of [cols] cells, and rows past [rows] are kept. *)
Theorem generateRandomSeed_grid (draws : nat → bool) (cols : nat) (st : State) :
  generateRandomSeed draws cols st
  = Some {| rows := rows st; rule := rule st;
            grid := ((fun i => JBool (draws i)) <$> seq 0 cols)
                    :: replicate (rows st - 1) (replicate cols JNull)
                    ++ drop (rows st - 1) (drop 1 (grid st));
            isAnimating := isAnimating st; hasGenerated := false |}.
Proof.
  unfold generateRandomSeed.
  pose proof (arr_set_middle [] (grid st)
                ((fun i => JBool (draws i)) <$> seq 0 cols)) as H.
  simpl in H. rewrite H. cbn [mbind option_bind].
  by rewrite unset_rows_cons.
Qed.

(** ** Further properties: the exporter *)

Lemma build_matrix_ext (g1 g2 : Grid) rows cols :
  (∀ r c, (r < rows)%nat → (c < cols)%nat →
     truthy (grid_cell g1 r c) = truthy (grid_cell g2 r c)) →
  build_matrix g1 rows cols = build_matrix g2 rows cols.
Proof.
  intros H. unfold build_matrix. apply for_loop_ext. intros r m Hr.
  apply for_loop_ext. intros c m' Hc. apply elem_of_seq in Hr, Hc.
  by rewrite H by lia.
Qed.

Lemma cell_rects_ext (g1 g2 : Grid) cols rows cellSize :
  (∀ r c, (r < rows)%nat → (c < cols)%nat →
     truthy (grid_cell g1 r c) = truthy (grid_cell g2 r c)) →
  cell_rects g1 cols rows cellSize = cell_rects g2 cols rows cellSize.
Proof.
  intros H. unfold cell_rects. apply for_loop_ext. intros r m Hr.
  apply for_loop_ext. intros c m' Hc. apply elem_of_seq in Hr, Hc.
  by rewrite H by lia.
Qed.

(** X10. The document depends on the grid only through which of the
    cells inside [rows] by [cols] are truthy: rows and cells that the
    grid lacks count as empty (nothing is thrown for a grid that is too
    small), and rows and cells outside [rows] by [cols] are ignored. *)
Theorem generateSVG_reads_cells_in_range (g1 g2 : Grid) (cols rows : nat)
    (roundedCorners cellSize : Z) :
  (∀ r c, (r < rows)%nat → (c < cols)%nat →
     truthy (grid_cell g1 r c) = truthy (grid_cell g2 r c)) →
  generateSVG g1 cols rows roundedCorners cellSize
    = generateSVG g2 cols rows roundedCorners cellSize.
Proof.
  intros H. unfold generateSVG.
  by rewrite (build_matrix_ext g1 g2), (cell_rects_ext g1 g2).
Qed.

(** X10 on a grid of one short row and a grid with cells out of range. *)
Lemma generateSVG_reads_cells_in_range_witness :
  generateSVG [[JBool true]] 2 2 3 10
  = generateSVG [[JBool true; JNull; JBool true]; []; [JBool true]] 2 2 3 10.
Proof.
  apply (generateSVG_reads_cells_in_range
           [[JBool true]] [[JBool true; JNull; JBool true]; []; [JBool true]]).
  intros r c Hr Hc.
  destruct r as [|[|r]]; [| |lia]; (destruct c as [|[|c]]; [| |lia]); reflexivity.
Defined.

Lemma least_elem_of_fst (m : Z) (component : list Cell) :
  m ∈ component.*1 → ∃ p, p ∈ component ∧ p.1 = m.
Proof. intros (p & -> & Hp)%list_elem_of_fmap. by exists p. Qed.

Lemma least_elem_of_snd (m : Z) (component : list Cell) :
  m ∈ component.*2 → ∃ p, p ∈ component ∧ p.2 = m.
Proof. intros (p & -> & Hp)%list_elem_of_fmap. by exists p. Qed.

(** The bounding box of cells inside the grid is inside the grid. *)
Lemma covers_bounding_box_in_bounds rows cols cellSize roundedCorners component q :
  (∀ p, p ∈ component → in_bounds rows cols p) →
  covers_bounding_box cellSize roundedCorners component q →
  ∃ minR maxR minC maxC,
    0 ≤ minR ≤ maxR ∧ maxR < Z.of_nat rows ∧
    0 ≤ minC ≤ maxC ∧ maxC < Z.of_nat cols ∧
    (∀ p, p ∈ component → minR ≤ p.1 ≤ maxR ∧ minC ≤ p.2 ≤ maxC) ∧
    q = {| rect_x := minC * cellSize; rect_y := minR * cellSize;
           rect_width := (maxC - minC + 1) * cellSize;
           rect_height := (maxR - minR + 1) * cellSize;
           rect_radius := Some roundedCorners |}.
Proof.
  intros Hin (minR & maxR & minC & maxC & [H1 L1] & [H2 L2] & [H3 L3] & [H4 L4] & ->).
  exists minR, maxR, minC, maxC.
  destruct (least_elem_of_fst _ _ H1) as (p1 & Hp1 & <-).
  destruct (least_elem_of_fst _ _ H2) as (p2 & Hp2 & <-).
  destruct (least_elem_of_snd _ _ H3) as (p3 & Hp3 & <-).
  destruct (least_elem_of_snd _ _ H4) as (p4 & Hp4 & <-).
  pose proof (Hin _ Hp1) as [? ?]. pose proof (Hin _ Hp2) as [? ?].
  pose proof (Hin _ Hp3) as [? ?]. pose proof (Hin _ Hp4) as [? ?].
  pose proof (L1 _ H2). pose proof (L3 _ H4).
  split; [lia|]. split; [lia|]. split; [lia|]. split; [lia|]. split; [|done].
  intros p Hp.
  pose proof (L1 p.1 (list_elem_of_fmap_2 fst _ _ Hp)).
  pose proof (L2 p.1 (list_elem_of_fmap_2 fst _ _ Hp)).
  pose proof (L3 p.2 (list_elem_of_fmap_2 snd _ _ Hp)).
  pose proof (L4 p.2 (list_elem_of_fmap_2 snd _ _ Hp)). lia.
Qed.

Lemma found_components_in_bounds (grid : Grid) rows cols components c p :
  found_components (filled grid rows cols) components →
  c ∈ components → p ∈ c → in_bounds rows cols p.
Proof.
  intros Hfound Hc Hp.
  apply (fc_cover _ _ Hfound p). apply elem_of_concat. by exists c.
Qed.

(** X11. For a cell size that is not negative, every rectangle of the
    document, rounded or not, lies inside the canvas of
    [cols * cellSize] by [rows * cellSize] and is at least one cell wide
    and high. *)
Theorem rectangles_inside_canvas (grid : Grid) (cols rows : nat)
    (roundedCorners cellSize : Z) :
  0 ≤ cellSize →
  ∃ rects,
    generateSVG grid cols rows roundedCorners cellSize
      = Some (document_markup cols rows cellSize rects) ∧
    Forall (fun q =>
      0 ≤ rect_x q ∧ 0 ≤ rect_y q ∧
      cellSize ≤ rect_width q ∧ cellSize ≤ rect_height q ∧
      rect_x q + rect_width q ≤ Z.of_nat cols * cellSize ∧
      rect_y q + rect_height q ≤ Z.of_nat rows * cellSize) rects.
Proof.
  intros Hcs. destruct (decide (0 < roundedCorners)) as [Hr|Hr].
  - destruct (generateSVG_rounded grid cols rows roundedCorners cellSize Hr)
      as (components & rects & _ & Hfound & Hcovers & ->).
    exists rects. split; [done|].
    apply Forall_forall. intros q Hq.
    apply list_elem_of_lookup in Hq as [i Hi].
    destruct (Forall2_lookup_r _ _ _ _ _ Hcovers Hi) as (c & Hc & Hcq).
    destruct (covers_bounding_box_in_bounds rows cols cellSize roundedCorners c q)
      as (minR & maxR & minC & maxC & HR & HR' & HC & HC' & _ & ->); [|done|].
    { intros p Hp. eapply found_components_in_bounds; [done| |done].
      by eapply list_elem_of_lookup_2. }
    simpl. nia.
  - eexists. split; [apply generateSVG_flat; lia|].
    apply Forall_fmap, Forall_forall. intros p Hp.
    apply list_elem_of_filter in Hp as [_ Hp]. apply elem_of_cells in Hp.
    simpl. nia.
Qed.

(** X11 on a grid of two rows with a cell size of 10. *)
Lemma rectangles_inside_canvas_witness :
  0 ≤ 10 ∧
  ∃ rects,
    generateSVG [[JBool true; JNull]; [JBool true; JBool true]] 2 2 3 10
      = Some (document_markup 2 2 10 rects) ∧
    Forall (fun q =>
      0 ≤ rect_x q ∧ 0 ≤ rect_y q ∧
      10 ≤ rect_width q ∧ 10 ≤ rect_height q ∧
      rect_x q + rect_width q ≤ Z.of_nat 2 * 10 ∧
      rect_y q + rect_height q ≤ Z.of_nat 2 * 10) rects.
Proof.
  split; [lia|].
  apply (rectangles_inside_canvas
           [[JBool true; JNull]; [JBool true; JBool true]] 2 2 3 10). lia.
Defined.

(** X12. With a positive corner radius and a cell size that is not
    negative, the square of every filled cell lies inside a rectangle
    of the document: merging into bounding boxes may fill more than the
    filled cells, never less. *)
Theorem rounded_export_covers_filled_cells (grid : Grid) (cols rows : nat)
    (roundedCorners cellSize : Z) :
  0 < roundedCorners → 0 ≤ cellSize →
  ∃ rects,
    generateSVG grid cols rows roundedCorners cellSize
      = Some (document_markup cols rows cellSize rects) ∧
    ∀ p, filled grid rows cols p →
      ∃ q, q ∈ rects ∧
        rect_x q ≤ p.2 * cellSize ∧
        p.2 * cellSize + cellSize ≤ rect_x q + rect_width q ∧
        rect_y q ≤ p.1 * cellSize ∧
        p.1 * cellSize + cellSize ≤ rect_y q + rect_height q.
Proof.
  intros Hr Hcs.
  destruct (generateSVG_rounded grid cols rows roundedCorners cellSize Hr)
    as (components & rects & _ & Hfound & Hcovers & ->).
  exists rects. split; [done|]. intros p Hp.
  destruct (found_components_unique _ _ p Hfound Hp) as (i & c & Hi & Hpc & _).
  destruct (Forall2_lookup_l _ _ _ _ _ Hcovers Hi) as (q & Hq & Hcq).
  exists q. split; [by eapply list_elem_of_lookup_2|].
  destruct (covers_bounding_box_in_bounds rows cols cellSize roundedCorners c q)
    as (minR & maxR & minC & maxC & HR & HR' & HC & HC' & Hbox & ->); [|done|].
  { intros p' Hp'. eapply found_components_in_bounds; [done| |done].
    by eapply list_elem_of_lookup_2. }
  destruct (Hbox p Hpc). simpl. nia.
Qed.

(** X12 on a grid of two rows. *)
Lemma rounded_export_covers_filled_cells_witness :
  0 < 3 ∧ 0 ≤ 10 ∧
  ∃ rects,
    generateSVG [[JBool true; JNull]; [JBool true; JBool true]] 2 2 3 10
      = Some (document_markup 2 2 10 rects) ∧
    ∀ p, filled [[JBool true; JNull]; [JBool true; JBool true]] 2 2 p →
      ∃ q, q ∈ rects ∧
        rect_x q ≤ p.2 * 10 ∧
        p.2 * 10 + 10 ≤ rect_x q + rect_width q ∧
        rect_y q ≤ p.1 * 10 ∧
        p.1 * 10 + 10 ≤ rect_y q + rect_height q.
Proof.
  split; [lia|]. split; [lia|].
  apply (rounded_export_covers_filled_cells
           [[JBool true; JNull]; [JBool true; JBool true]] 2 2 3 10); lia.
Defined.

Lemma length_concat_nonempty {A : Type} (ls : list (list A)) :
  Forall (fun l => l ≠ []) ls → (length ls ≤ length (concat ls))%nat.
Proof.
  induction 1 as [|l ls Hl _ IH]; [done|].
  simpl. rewrite length_app. destruct l; [done|]. simpl. lia.
Qed.

(** X13. The rounded document never has more rectangles than the flat
    one, which has one per filled cell. *)
Theorem rounded_export_merges (grid : Grid) (cols rows : nat)
    (roundedCorners cellSize : Z) :
  0 < roundedCorners →
  ∃ rounded flat,
    generateSVG grid cols rows roundedCorners cellSize
      = Some (document_markup cols rows cellSize rounded) ∧
    generateSVG grid cols rows 0 cellSize
      = Some (document_markup cols rows cellSize flat) ∧
    length flat
      = length (filter (fun p => truthy (grid_cell grid p.1 p.2) = true)
                  (cells rows cols)) ∧
    (length rounded ≤ length flat)%nat.
Proof.
  intros Hr.
  destruct (generateSVG_rounded grid cols rows roundedCorners cellSize Hr)
    as (components & rects & _ & Hfound & Hcovers & ->).
  eexists rects, _. split; [done|].
  split; [apply generateSVG_flat; lia|]. rewrite length_fmap. split; [done|].
  rewrite <- (Forall2_length _ _ _ Hcovers).
  etrans; [apply length_concat_nonempty|].
  { eapply Forall_impl; [apply (fc_components _ _ Hfound)|]. by intros c [? _]. }
  rewrite <- (length_fmap zcell (filter _ _)).
  apply submseteq_length, NoDup_submseteq; [apply (fc_nodup _ _ Hfound)|].
  intros p Hp. apply (fc_cover _ _ Hfound) in Hp as [Hb Ht].
  apply in_bounds_zcell in Hb as (d & Hd & ->).
  apply list_elem_of_fmap_2, list_elem_of_filter. split; [|done].
  unfold zcell in Ht. simpl in Ht. by rewrite !Nat2Z.id in Ht.
Qed.

(** X13 on a grid of two rows. *)
Lemma rounded_export_merges_witness :
  0 < 3 ∧
  ∃ rounded flat,
    generateSVG [[JBool true; JNull]; [JBool true; JBool true]] 2 2 3 10
      = Some (document_markup 2 2 10 rounded) ∧
    generateSVG [[JBool true; JNull]; [JBool true; JBool true]] 2 2 0 10
      = Some (document_markup 2 2 10 flat) ∧
    (length rounded ≤ length flat)%nat.
Proof.
  split; [lia|].
  destruct (rounded_export_merges
              [[JBool true; JNull]; [JBool true; JBool true]] 2 2 3 10 ltac:(lia))
    as (rounded & flat & H1 & H2 & _ & H3).
  by exists rounded, flat.
Defined.

Lemma filter_none {A : Type} (P : A → Prop) `{!∀ x, Decision (P x)} (l : list A) :
  (∀ x, x ∈ l → ¬ P x) → filter P l = [].
Proof.
  induction l as [|a l IH]; intros Hnone; [done|].
  rewrite filter_cons, decide_False by (apply Hnone; left).
  apply IH. intros x Hx. apply Hnone. by right.
Qed.

(** A grid without a filled cell in range gives a document without a
    rectangle. *)
Lemma generateSVG_nothing_filled (grid : Grid) cols rows roundedCorners cellSize :
  (∀ r c, (r < rows)%nat → (c < cols)%nat → truthy (grid_cell grid r c) = false) →
  generateSVG grid cols rows roundedCorners cellSize
    = Some (document_markup cols rows cellSize []).
Proof.
  intros Hempty. destruct (decide (0 < roundedCorners)) as [Hr|Hr].
  - destruct (generateSVG_rounded grid cols rows roundedCorners cellSize Hr)
      as (components & rects & _ & Hfound & Hcovers & ->).
    destruct components as [|c components].
    + by apply Forall2_nil_inv_l in Hcovers as ->.
    + pose proof (fc_components _ _ Hfound) as Hcomps.
      apply Forall_cons in Hcomps as [(Hne & _ & Hon & _) _].
      destruct c as [|p c]; [done|].
      destruct (Hon p) as [[Hp1 Hp2] Ht]; [left|].
      rewrite Hempty in Ht by lia. done.
  - rewrite generateSVG_flat by lia. rewrite filter_none; [done|].
    intros p Hp%elem_of_cells. rewrite Hempty by lia. done.
Qed.

Lemma grid_cell_newGrid rows cols r c :
  truthy (grid_cell (newGrid rows cols) r c) = false.
Proof.
  unfold grid_cell, newGrid. rewrite list_lookup_imap.
  destruct (replicate rows JNull !! r) as [v|]; [|done]. simpl.
  destruct (replicate cols _ !! c) as [w|] eqn:Hw; [|done].
  apply lookup_replicate in Hw as [-> _]. by case_decide.
Qed.

(** X14. The grid that the effect on the dimensions and [clearAll]
    build has [rows] rows of [cols] cells, an empty row 0 and unset
    rows after it, and its document has no rectangle, with or without
    a corner radius. *)
Theorem cleared_grid_exports_nothing (cols : nat) (st : State)
    (roundedCorners cellSize : Z) :
  length (grid (clearAll cols st)) = rows st ∧
  (∀ r row, grid (clearAll cols st) !! r = Some row →
     row = replicate cols (if decide (r = 0%nat) then JBool false else JNull)) ∧
  generateSVG (grid (clearAll cols st)) cols (rows st) roundedCorners cellSize
    = Some (document_markup cols (rows st) cellSize []).
Proof.
  unfold clearAll. cbn [grid]. split; [|split].
  - unfold newGrid. by rewrite length_imap, length_replicate.
  - intros r row Hrow. unfold newGrid in Hrow.
    by apply list_lookup_imap_Some in Hrow as (v & _ & ->).
  - apply generateSVG_nothing_filled. intros r c _ _. apply grid_cell_newGrid.
Qed.

(** ** Further properties: the rule list and the preview *)

Lemma string_app_nil (s1 s2 : string) :
  s1 +:+ s2 = EmptyString → s1 = EmptyString ∧ s2 = EmptyString.
Proof. destruct s1; [done|]. by rewrite string_app_cons. Qed.

Lemma is_prefix_spec (p s : string) :
  is_prefix p s = true ↔ ∃ post, s = p +:+ post.
Proof.
  revert s. induction p as [|a p IH]; intros s; simpl.
  - split; [by exists s|done].
  - destruct s as [|b s].
    + split; [done|]. intros [post H]. by rewrite string_app_cons in H.
    + rewrite andb_true_iff, IH. split.
      * intros [Hab [post ->]]. apply Ascii.eqb_eq in Hab as ->.
        by exists post.
      * intros [post H]. rewrite string_app_cons in H. injection H as -> ->.
        split; [apply Ascii.eqb_refl|by exists post].
Qed.

(** [includes] is the test that the text holds the search text. *)
Lemma includes_spec (s sub : string) :
  includes s sub = true ↔ ∃ pre post, s = pre +:+ sub +:+ post.
Proof.
  induction s as [|a s IH]; simpl.
  - rewrite orb_false_r, is_prefix_spec. split.
    + intros [post H]. by exists EmptyString, post.
    + intros (pre & post & H). symmetry in H.
      apply string_app_nil in H as [-> H]. by exists post.
  - rewrite orb_true_iff, is_prefix_spec, IH. split.
    + intros [[post H]|(pre & post & ->)].
      * by exists EmptyString, post.
      * by exists (String a pre), post.
    + intros (pre & post & H). destruct pre as [|b pre].
      * left. by exists post.
      * rewrite string_app_cons in H. injection H as -> ->. right.
        by exists pre, post.
Qed.

(** X15. The rule list holds exactly the numbers from 0 to 255 whose
    decimal text contains the search text, in increasing order (it is
    a sublist of 0..255); an empty search lists all 256 rules, and
    every rule is found by its own number. *)
Theorem filteredRules_spec (ruleSearch : string) :
  (∀ r, r ∈ filteredRules ruleSearch
        ↔ 0 ≤ r ≤ 255 ∧ ∃ pre post, pretty r = pre +:+ ruleSearch +:+ post) ∧
  filteredRules ruleSearch `sublist_of` seqZ 0 256 ∧
  filteredRules EmptyString = seqZ 0 256 ∧
  (∀ r, 0 ≤ r ≤ 255 → r ∈ filteredRules (pretty r)).
Proof.
  assert (∀ q r, r ∈ filteredRules q
        ↔ 0 ≤ r ≤ 255 ∧ ∃ pre post, pretty r = pre +:+ q +:+ post) as Hspec.
  { intros q r. unfold filteredRules.
    rewrite list_elem_of_filter, includes_spec, elem_of_seqZ.
    split; intros [H1 H2]; (split; [done || lia|done || lia]). }
  split; [apply Hspec|]. split; [apply sublist_filter|]. split.
  - unfold filteredRules. induction (seqZ 0 256) as [|r l IH]; [done|].
    rewrite filter_cons, decide_True by (by destruct (pretty r)).
    by rewrite IH.
  - intros r Hr. apply Hspec. split; [done|].
    exists EmptyString, EmptyString. by rewrite string_app_nil_r.
Qed.

(** X16. The preview gives a cell inside the grid a [borderRadius]
    exactly when the corner radius is positive and the cell is filled
    (an empty cell, or a radius of 0, gets none). Then a neighbour
    counts exactly when it is a filled cell of the [rows] by [cols]
    grid (the cells past the border of the grid count as not filled),
    and a corner is rounded exactly when neither of the two neighbours
    at that corner counts. *)
Theorem cellBorderRadius_exposed_corners (grid : Grid) (rows cols : nat)
    (roundedCorners : Z) (rowIndex colIndex : nat) (row : list jsval)
    (cell : jsval) :
  (rowIndex < rows)%nat → (colIndex < cols)%nat →
  grid !! rowIndex = Some row → row !! colIndex = Some cell →
  ∃ top bottom left right : bool,
    (top = true
     ↔ filled grid rows cols (Z.of_nat rowIndex - 1, Z.of_nat colIndex)) ∧
    (bottom = true
     ↔ filled grid rows cols (Z.of_nat rowIndex + 1, Z.of_nat colIndex)) ∧
    (left = true
     ↔ filled grid rows cols (Z.of_nat rowIndex, Z.of_nat colIndex - 1)) ∧
    (right = true
     ↔ filled grid rows cols (Z.of_nat rowIndex, Z.of_nat colIndex + 1)) ∧
    previewBorderRadius grid rows cols roundedCorners !! rowIndex
      ≫= (.!! colIndex)
    = Some
        (if decide (0 < roundedCorners ∧
                    filled grid rows cols (Z.of_nat rowIndex, Z.of_nat colIndex))
         then Some (corner_px (negb top && negb left) roundedCorners +:+ " "
              +:+ corner_px (negb top && negb right) roundedCorners +:+ " "
              +:+ corner_px (negb bottom && negb right) roundedCorners +:+ " "
              +:+ corner_px (negb bottom && negb left) roundedCorners)
         else None).
Proof.
  intros Hr Hc Hrow Hcell.
  exists ((0 <? Z.of_nat rowIndex)
          && truthy (grid_cell grid (rowIndex - 1) colIndex)),
    ((Z.of_nat rowIndex <? Z.of_nat rows - 1)
     && truthy (grid_cell grid (rowIndex + 1) colIndex)),
    ((0 <? Z.of_nat colIndex)
     && truthy (grid_cell grid rowIndex (colIndex - 1))),
    ((Z.of_nat colIndex <? Z.of_nat cols - 1)
     && truthy (grid_cell grid rowIndex (colIndex + 1))).
  assert ((0 ≤ Z.of_nat rowIndex < Z.of_nat rows
           ∧ 0 ≤ Z.of_nat colIndex < Z.of_nat cols)
          ∧ truthy (grid_cell grid rowIndex colIndex) = true
          ↔ truthy cell = true) as Hfilled.
  { unfold grid_cell. rewrite Hrow, Hcell. simpl. split; [by intros [_ ?]|].
    intros ?. split; [lia|done]. }
  unfold filled, in_bounds. cbn [fst snd].
  rewrite !andb_true_iff, !Z.ltb_lt.
  replace (Z.to_nat (Z.of_nat rowIndex - 1)) with (rowIndex - 1)%nat by lia.
  replace (Z.to_nat (Z.of_nat rowIndex + 1)) with (rowIndex + 1)%nat by lia.
  replace (Z.to_nat (Z.of_nat colIndex - 1)) with (colIndex - 1)%nat by lia.
  replace (Z.to_nat (Z.of_nat colIndex + 1)) with (colIndex + 1)%nat by lia.
  rewrite !Nat2Z.id.
  split; [split; intros [? ?]; (split; [lia|done])|].
  split; [split; intros [? ?]; (split; [lia|done])|].
  split; [split; intros [? ?]; (split; [lia|done])|].
  split; [split; intros [? ?]; (split; [lia|done])|].
  unfold previewBorderRadius. rewrite list_lookup_imap, Hrow. simpl.
  rewrite list_lookup_imap, Hcell. simpl. f_equal.
  unfold cellBorderRadius.
  destruct (Z.ltb_spec 0 roundedCorners) as [Hpos|Hpos];
    destruct (truthy cell) eqn:Hcellv; simpl.
  - rewrite decide_True; [done|]. split; [done|]. by apply Hfilled.
  - rewrite decide_False; [done|]. intros [_ Hf]. apply Hfilled in Hf. done.
  - rewrite decide_False; [done|]. intros [? _]. lia.
  - rewrite decide_False; [done|]. intros [? _]. lia.
Qed.

(** X16 at the corner cell of a grid of two rows. *)
Lemma cellBorderRadius_exposed_corners_witness :
  ∃ top bottom left right : bool,
    (bottom = true
     ↔ filled [[JBool true; JBool true]; [JBool false; JBool true]] 2 2
         (Z.of_nat 0 + 1, Z.of_nat 1)) ∧
    previewBorderRadius [[JBool true; JBool true]; [JBool false; JBool true]]
      2 2 4 !! 0%nat ≫= (.!! 1%nat)
    = Some
        (if decide (0 < 4 ∧
                    filled [[JBool true; JBool true]; [JBool false; JBool true]]
                      2 2 (Z.of_nat 0, Z.of_nat 1))
         then Some (corner_px (negb top && negb left) 4 +:+ " "
              +:+ corner_px (negb top && negb right) 4 +:+ " "
              +:+ corner_px (negb bottom && negb right) 4 +:+ " "
              +:+ corner_px (negb bottom && negb left) 4)
         else None).
Proof.
  destruct (cellBorderRadius_exposed_corners
              [[JBool true; JBool true]; [JBool false; JBool true]] 2 2 4 0 1
              [JBool true; JBool true] (JBool true))
    as (top & bottom & left & right & _ & Hb & _ & _ & H);
    [lia|lia|reflexivity|reflexivity|].
  by exists top, bottom, left, right.
Defined.

Lemma StronglySorted_filter {A : Type} (R : relation A) (P : A → Prop)
    `{!∀ x, Decision (P x)} (l : list A) :
  StronglySorted R l → StronglySorted R (filter P l).
Proof.
  induction 1 as [|x l Hl IH Hx]; [constructor|].
  rewrite filter_cons. case_decide; [|done]. constructor; [done|].
  apply Forall_forall. intros y [_ Hy]%list_elem_of_filter.
  rewrite Forall_forall in Hx. by apply Hx.
Qed.

Lemma StronglySorted_fmap_inv {A B : Type} (f : A → B) (R : relation B)
    (l : list A) :
  StronglySorted R (f <$> l) → StronglySorted (fun x y => R (f x) (f y)) l.
Proof.
  induction l as [|x l IH]; intros H; [constructor|].
  rewrite fmap_cons in H. apply StronglySorted_inv in H as [Hl Hx].
  constructor; [by apply IH|]. rewrite Forall_fmap in Hx. exact Hx.
Qed.

Lemma StronglySorted_NoDup {A : Type} (R : relation A) (l : list A) :
  (∀ x, ¬ R x x) → StronglySorted R l → NoDup l.
Proof.
  intros Hirr. induction 1 as [|x l Hl IH Hx]; constructor; [|done].
  intros Hin. rewrite Forall_forall in Hx. by apply (Hirr x), Hx.
Qed.

(** The filled cells in row-major order. *)
Lemma filled_cells_sorted (grid : Grid) rows cols :
  StronglySorted rm_lt
    (zcell <$> filter (fun p => truthy (grid_cell grid p.1 p.2) = true)
                 (cells rows cols)).
Proof.
  apply (StronglySorted_fmap zcell (fun x y => rm_lt (zcell x) (zcell y)));
    [done|].
  apply StronglySorted_filter, StronglySorted_fmap_inv, cells_sorted.
Qed.

Lemma filled_cells_list (grid : Grid) rows cols (p : Cell) :
  filled grid rows cols p
  ↔ p ∈ zcell <$> filter (fun p => truthy (grid_cell grid p.1 p.2) = true)
                    (cells rows cols).
Proof.
  rewrite list_elem_of_fmap. split.
  - intros [Hb Ht]. apply in_bounds_zcell in Hb as (d & Hd & ->).
    exists d. split; [done|]. apply list_elem_of_filter. split; [|done].
    unfold zcell in Ht. simpl in Ht. by rewrite !Nat2Z.id in Ht.
  - intros (d & -> & Hd). apply list_elem_of_filter in Hd as [Ht Hd].
    split; [apply in_bounds_zcell; by exists d|].
    unfold zcell. simpl. by rewrite !Nat2Z.id.
Qed.

Lemma separate_component (on : Cell → Prop) (c : list Cell) :
  (∀ p q, on p → on q → ¬ adjacent p q) → is_component on c → ∃ p, c = [p].
Proof.
  intros Hsep (Hne & Hnd & Hon & Hclass).
  destruct c as [|a c]; [done|]. exists a. f_equal.
  destruct c as [|b c]; [done|]. exfalso.
  apply NoDup_cons in Hnd as [Ha _]. apply Ha.
  assert (connected on a b) as Hab by (apply (Hclass a); [left|right; left]).
  apply rtc_inv in Hab as [->|(y & (Hpa & Hpy & Hadj) & _)]; [left|].
  by destruct (Hsep a y).
Qed.

(** X17. When no two filled cells are neighbours, nothing is merged:
    with a positive corner radius the document is the flat document
    with the radius on every rectangle, one rectangle of one cell per
    filled cell, in row-major order. *)
Theorem rounded_export_of_separate_cells (grid : Grid) (cols rows : nat)
    (roundedCorners cellSize : Z) :
  0 < roundedCorners →
  (∀ p q, filled grid rows cols p → filled grid rows cols q → ¬ adjacent p q) →
  generateSVG grid cols rows roundedCorners cellSize
    = Some (document_markup cols rows cellSize
        ((fun p => {| rect_x := Z.of_nat p.2 * cellSize;
                      rect_y := Z.of_nat p.1 * cellSize;
                      rect_width := cellSize; rect_height := cellSize;
                      rect_radius := Some roundedCorners |}) <$>
          filter (fun p => truthy (grid_cell grid p.1 p.2) = true)
            (cells rows cols))).
Proof.
  intros Hr Hsep.
  destruct (generateSVG_rounded grid cols rows roundedCorners cellSize Hr)
    as (components & rects & _ & [Hnd Hcover Hcomps _ Horder] & Hcovers & ->).
  do 2 f_equal.
  assert (Forall (fun c => ∃ p, c = [p]) components) as Hsingle.
  { eapply Forall_impl; [exact Hcomps|]. intros c. by apply separate_component. }
  clear Hcomps.
  assert (components = (fun p => [p]) <$> concat components) as Hshape.
  { clear -Hsingle. induction Hsingle as [|c cs [p ->] _ IH]; [done|].
    change (concat ([p] :: cs)) with (p :: concat cs).
    rewrite fmap_cons. by f_equal. }
  assert (StronglySorted rm_lt (concat components)) as Hsorted.
  { clear -Hsingle Horder. unfold in_scan_order in Horder.
    induction Horder as [|c cs _ IH Hc]; [constructor|].
    apply Forall_cons in Hsingle as [[p ->] Hsingle]. simpl.
    constructor; [by apply IH|]. apply Forall_forall. intros x Hx.
    apply elem_of_concat in Hx as (c & Hxc & Hc').
    rewrite Forall_forall in Hc, Hsingle.
    destruct (Hsingle c Hc') as [y ->]. apply list_elem_of_singleton in Hxc as ->.
    destruct (Hc [y] Hc') as (p1 & p2 & [= <-] & [= <-] & Hlt). done. }
  assert (concat components
          = zcell <$> filter (fun p => truthy (grid_cell grid p.1 p.2) = true)
                        (cells rows cols)) as Hcells.
  { apply (StronglySorted_unique_strong rm_lt); [|done|apply filled_cells_sorted|].
    - intros x y _ _ Hxy Hyx. unfold rm_lt in *. lia.
    - apply NoDup_Permutation; [done| |].
      + eapply StronglySorted_NoDup; [|apply filled_cells_sorted].
        intros x. unfold rm_lt. lia.
      + intros x. by rewrite Hcover, filled_cells_list. }
  rewrite Hshape, Hcells in Hcovers. clear -Hcovers.
  revert rects Hcovers.
  induction (filter _ (cells rows cols)) as [|d l IH]; intros rects Hcovers.
  - by apply Forall2_nil_inv_l in Hcovers as ->.
  - simpl in Hcovers.
    apply Forall2_cons_inv_l in Hcovers as (q & rects' & Hq & Hrest & ->).
    simpl. f_equal; [|by apply IH].
    apply (covers_bounding_box_unique cellSize roundedCorners [zcell d]); [done|].
    exists (Z.of_nat d.1), (Z.of_nat d.1), (Z.of_nat d.2), (Z.of_nat d.2).
    unfold least, greatest. simpl.
    repeat (split; [split; [left|intros x Hx%list_elem_of_singleton; lia]|]).
    f_equal; lia.
Qed.

(** X17 on a checkerboard of two rows. *)
Lemma rounded_export_of_separate_cells_witness :
  0 < 3 ∧
  generateSVG [[JBool true; JBool false]; [JNull; JBool true]] 2 2 3 10
  = Some (document_markup 2 2 10
      [ {| rect_x := 0; rect_y := 0; rect_width := 10; rect_height := 10;
           rect_radius := Some 3 |};
        {| rect_x := 10; rect_y := 10; rect_width := 10; rect_height := 10;
           rect_radius := Some 3 |} ]).
Proof.
  split; [lia|].
  apply (rounded_export_of_separate_cells
           [[JBool true; JBool false]; [JNull; JBool true]] 2 2 3 10); [lia|].
  intros [pr pc] [qr qc] [[Hp1 Hp2] Hp] [[Hq1 Hq2] Hq]. simpl in *.
  assert (pr = 0 ∨ pr = 1) as [-> | ->] by lia;
  assert (pc = 0 ∨ pc = 1) as [-> | ->] by lia;
  assert (qr = 0 ∨ qr = 1) as [-> | ->] by lia;
  assert (qc = 0 ∨ qc = 1) as [-> | ->] by lia;
    simpl in Hp, Hq; try discriminate; unfold adjacent; simpl; lia.
Defined.

(** ** Further properties: grids of any length, mirrored rows *)

Lemma animate_rows_any table k : ∀ currentRow (pre : Grid) row (post : Grid),
  currentRow = S (length pre) →
  animate table k currentRow (pre ++ row :: post)
    = Some (pre ++ generate row table (S k) ++ drop k post).
Proof.
  induction k as [|k IH]; intros currentRow pre row post ->; [done|].
  cbn [animate]. unfold animate_step. rewrite decide_True by lia.
  replace (S (length pre) - 1)%nat with (length pre) by lia.
  rewrite (list_lookup_middle pre post row (length pre) eq_refl).
  cbn [mbind option_bind].
  assert ((if decide (S (length pre) < length (pre ++ row :: post))%nat
           then Some (<[S (length pre):=applyRule row table]> (pre ++ row :: post))
           else Some ((pre ++ row :: post) ++ [applyRule row table]))
          = Some ((pre ++ [row]) ++ applyRule row table :: drop 1 post)) as ->.
  { destruct post as [|old post].
    - rewrite decide_False by (rewrite length_app; simpl; lia).
      by rewrite <- !app_assoc.
    - rewrite decide_True by (rewrite length_app; simpl; lia).
      change (pre ++ row :: old :: post) with (pre ++ [row] ++ old :: post).
      rewrite app_assoc.
      replace (S (length pre)) with (length (pre ++ [row]) + 0)%nat
        by (rewrite length_app; simpl; lia).
      by rewrite insert_app_r. }
  cbn [mbind option_bind].
  rewrite (IH _ (pre ++ [row]) (applyRule row table) (drop 1 post));
    [|rewrite length_app; simpl; lia].
  rewrite <- app_assoc, drop_drop. done.
Qed.

(** X18. [generatePattern] on a grid of any length: with a row 0 it
    never fails, it overwrites the rows up to [rows] by the generated
    ones, extends a grid that is too short and keeps the rows past
    [rows]; on a grid without rows it throws as soon as [rows] is 2 or
    more. *)
Theorem generatePattern_any_grid (st : State) :
  isAnimating st = false →
  (grid st = [] →
     generatePattern st
       = if decide (rows st ≤ 1)%nat
         then Some {| rows := rows st; rule := rule st; grid := [];
                      isAnimating := false; hasGenerated := true |}
         else None) ∧
  (∀ seedRow rest, grid st = seedRow :: rest →
     generatePattern st
       = Some {| rows := rows st; rule := rule st;
                 grid := generate seedRow (getRuleLookup (rule st))
                           (S (rows st - 1))
                         ++ drop (rows st - 1) rest;
                 isAnimating := false; hasGenerated := true |}).
Proof.
  intros Hanim. unfold generatePattern. rewrite Hanim. split.
  - intros ->. case_decide as Hrows.
    + by replace (rows st - 1)%nat with 0%nat by lia.
    + by destruct (rows st - 1)%nat as [|k] eqn:Hk; [lia|].
  - intros seedRow rest ->.
    pose proof (animate_rows_any (getRuleLookup (rule st)) (rows st - 1) 1 []
                  seedRow rest eq_refl) as H.
    simpl app in H. by rewrite H.
Qed.

(** X18 on a grid of one row with [rows] at 3. *)
Lemma generatePattern_any_grid_witness :
  generatePattern (mkState 3 90 [[JBool false; JBool true]] false false)
  = Some (mkState 3 90
            (generate [JBool false; JBool true] (getRuleLookup 90) (S (3 - 1))
             ++ drop (3 - 1) [])
            false true).
Proof.
  apply (generatePattern_any_grid
           (mkState 3 90 [[JBool false; JBool true]] false false) eq_refl).
  reflexivity.
Defined.

Lemma lookup_pattern_mirror table (l c r : jsval) :
  lookup_pattern (mirror_table table)
    (bit_char l +:+ bit_char c +:+ bit_char r)
  = lookup_pattern table (bit_char r +:+ bit_char c +:+ bit_char l).
Proof. unfold bit_char. by destruct (truthy l), (truthy c), (truthy r). Qed.

(** X19. The row step commutes with reversing the row when the table
    is read from right to left: stepping the reversed row is reversing
    the row stepped under the mirrored table, so a table that is its
    own mirror image keeps a symmetric row symmetric. *)
Theorem applyRule_reverse (prevRow : list jsval) (table : RuleLookup) :
  applyRule (reverse prevRow) table
    = reverse (applyRule prevRow (mirror_table table)).
Proof.
  apply (list_eq_same_length _ _ (length prevRow)).
  - by rewrite length_reverse, length_applyRule.
  - by rewrite length_applyRule, length_reverse.
  - intros i x y Hi Hx Hy.
    rewrite reverse_lookup in Hy by (by rewrite length_applyRule).
    rewrite length_applyRule in Hy.
    assert (reverse prevRow !! i = prevRow !! (length prevRow - S i)%nat) as Hrev
      by (by apply reverse_lookup).
    destruct (lookup_lt_is_Some_2 prevRow (length prevRow - S i) ltac:(lia))
      as [v Hv].
    rewrite Hv in Hrev.
    rewrite (applyRule_lookup _ _ _ _ Hrev) in Hx.
    rewrite (applyRule_lookup _ _ _ _ Hv) in Hy.
    injection Hx as <-. injection Hy as <-.
    rewrite lookup_pattern_mirror.
    f_equal. f_equal; [|f_equal]; do 3 f_equal.
    + destruct i as [|i].
      * by rewrite (proj2 (lookup_ge_None prevRow (S (length prevRow - 1))))
          by lia.
      * rewrite reverse_lookup by lia.
        by replace (S (length prevRow - S (S i))) with (length prevRow - S i)%nat
          by lia.
    + destruct (decide (S i < length prevRow)%nat) as [Hlt|Hge].
      * rewrite reverse_lookup by done.
        destruct (length prevRow - S i)%nat as [|j] eqn:Hj; [lia|].
        by replace (length prevRow - S (S i))%nat with j by lia.
      * rewrite (proj2 (lookup_ge_None _ _)) by (rewrite length_reverse; lia).
        by replace (length prevRow - S i)%nat with 0%nat by lia.
Qed.
